(** * n-body orbit simulator: the physics engine of [Orbit Sim Beta.py],
    [body.py] and [vector.py]

    Python floats are read as real numbers (the spec's properties are stated
    "within numerical tolerance"), Python ints as [Z], list indices and
    lengths as [nat].  An uncaught Python exception (ZeroDivisionError,
    ValueError) is the result [None]. *)

From Stdlib Require Import Reals Lra Lia ZArith String.
From stdpp Require Import base decidable option list list_numbers sorting.

Local Open Scope R_scope.

(** ** Decidable tests on reals, as the comparisons of the source *)

#[global] Instance Req_decision : EqDecision R := Req_dec_T.
#[global] Instance Rlt_decision (a b : R) : Decision (a < b) := Rlt_dec a b.
#[global] Instance Rle_decision (a b : R) : Decision (a <= b) := Rle_dec a b.

(** ** Arithmetic that can raise *)

(** [a / b] on numbers: ZeroDivisionError when [b] is zero. *)
Definition py_div (a b : R) : option R :=
  if decide (b = 0) then None else Some (a / b).

(** [a % b] on floats: ZeroDivisionError when [b] is zero; the result has
    the sign of [b], that is [a - b * floor (a / b)]. *)
Definition py_mod (a b : R) : option R :=
  if decide (b = 0) then None else Some (a - b * IZR (Int_part (a / b))).

(** [math.sqrt]: ValueError below zero. *)
Definition math_sqrt (a : R) : option R :=
  if decide (0 <= a) then Some (sqrt a) else None.

(** [math.log(a, base)] is [log a / log base]: ValueError unless both are
    positive, ZeroDivisionError for base 1. *)
Definition math_log (a base : R) : option R :=
  if decide (0 < a) then
    if decide (0 < base) then py_div (ln a) (ln base) else None
  else None.

(** [pow(a, b)] on floats.  A positive base gives [exp (b * ln a)]; base
    zero gives 0, 1 or ZeroDivisionError by the sign of the exponent.  For a
    negative base Python answers with a complex number unless the exponent
    is integral: that result is no real number and is [None] here; no call
    in the engine reaches it with the radii that [radScale] accepts. *)
Definition py_pow (a b : R) : option R :=
  if decide (0 < a) then Some (Rpower a b)
  else if decide (a = 0) then
    if decide (0 < b) then Some 0
    else if decide (b = 0) then Some 1 else None
  else None.

(** ** vector.py *)

Module Vec.

Record t : Type := mk { x : R; y : R }.

Definition tuple (v : t) : R * R := (x v, y v).

(** [__neg__], [__add__], [__sub__] *)
Definition neg (v : t) : t := mk (- x v) (- y v).
Definition add (v w : t) : t := mk (x v + x w) (y v + y w).
Definition sub (v w : t) : t := mk (x v - x w) (y v - y w).

(** [__mul__]: Vec * Vec is the dot product. *)
Definition mul (v w : t) : R := x v * x w + y v * y w.

(** [__rmul__]: number * Vec scales. *)
Definition rmul (k : R) (v : t) : t := mk (k * x v) (k * y v).

(** [__pow__] at exponent 2, its only use: [self ** 2] is
    [self * (self ** 1)], and [self ** 1] is [self]. *)
Definition pow_2 (v : t) : R := mul v v.

(** [__truediv__]: Vec / number. *)
Definition truediv (v : t) (k : R) : option t :=
  a ← py_div (x v) k; b ← py_div (y v) k; Some (mk a b).

End Vec.

(** ** body.py *)

Definition Colour : Type := (Z * Z * Z)%type.

(** One trace point: [(self.pos, 0.001, self.colour)]. *)
Definition TracePoint : Type := (Vec.t * R * Colour)%type.

Module Body.

Record t : Type := mk {
  mass : R;
  rad : R;
  pos : Vec.t;
  vel : Vec.t;
  colour : Colour;
  name : string;
  trace : list TracePoint
}.

(** [Body(mass, radius, position, velocity, colour, name)]: the trace
    starts empty. *)
Definition new (m r : R) (p v : Vec.t) (c : Colour) (n : string) : t :=
  mk m r p v c n [].

Definition set_pos (p : Vec.t) (b : t) : t :=
  mk (mass b) (rad b) p (vel b) (colour b) (name b) (trace b).
Definition set_vel (v : Vec.t) (b : t) : t :=
  mk (mass b) (rad b) (pos b) v (colour b) (name b) (trace b).
Definition set_trace (tr : list TracePoint) (b : t) : t :=
  mk (mass b) (rad b) (pos b) (vel b) (colour b) (name b) tr.

(** [self.pos += dt*self.vel]; Vec has no in-place addition, so this
    binds a new vector and no other holder of the old one sees a change. *)
Definition move (dt : R) (b : t) : t :=
  set_pos (Vec.add (pos b) (Vec.rmul dt (vel b))) b.

Definition boost (dv : Vec.t) (b : t) : t :=
  set_vel (Vec.add (vel b) dv) b.

Definition shift (dpos : Vec.t) (b : t) : t :=
  set_pos (Vec.add (pos b) dpos) b.

Definition trace_point (b : t) : TracePoint := (pos b, 1 / 1000, colour b).

(** [addTrace]: at or above the cap the first entry is sliced off
    ([self.trace[1:]]) before the new one is appended. *)
Definition addTrace (cap : Z) (b : t) : t :=
  if decide (Z.of_nat (length (trace b)) >= cap)%Z
  then set_trace (drop 1 (trace b) ++ [trace_point b]) b
  else set_trace (trace b ++ [trace_point b]) b.

Definition clearTrace (b : t) : t := set_trace [] b.

End Body.

(** ** Loops *)

(** [for a in l: body], where the body may raise. *)
Fixpoint for_each {A S : Type} (l : list A) (body : A → S → option S)
    (s : S) : option S :=
  match l with
  | [] => Some s
  | a :: l' => s' ← body a s; for_each l' body s'
  end.

(** The slice [l[a:b]] for [0 <= a]. *)
Definition slice {A : Type} (a b : nat) (l : list A) : list A :=
  take (b - a) (drop a l).

(** ** Orbit Sim Beta.py: functions *)

(** [G = 1.4881314*math.pow(10,-34)] *)
Definition G : R := 14881314 / 10 ^ 41.

(** The globals the coordinate functions read. *)
Record View : Type := mkView {
  scale : R;
  shift : Vec.t;
  absolute_centre : Vec.t;
  oldCentre : Body.t;
  dimensions : Z * Z
}.

Definition transform (V : View) (pos : Vec.t) : Vec.t :=
  let pos := Vec.sub pos (Body.pos (oldCentre V)) in
  let pos := Vec.add pos (shift V) in
  let pos := Vec.rmul (scale V) pos in
  Vec.add pos (absolute_centre V).

Definition detransform (V : View) (pos : Vec.t) : option Vec.t :=
  let pos := Vec.sub pos (absolute_centre V) in
  pos ← Vec.truediv pos (scale V);
  let pos := Vec.sub pos (shift V) in
  Some (Vec.add pos (Body.pos (oldCentre V))).

(** [2.5*(math.log(rad,10)/pow(10,2)-0.030)] *)
Definition radScale (rad : R) : option R :=
  l ← math_log rad 10;
  Some (25 / 10 * (l / 10 ^ 2 - 30 / 1000)).

Definition collision (pos1 : Vec.t) (rad1 : R) (pos2 : Vec.t) (rad2 : R)
    : option bool :=
  distance ← math_sqrt (Vec.pow_2 (Vec.sub pos1 pos2));
  Some (bool_decide (distance < rad1 + rad2 + 5 / 100)).

(** [averageColour]: [int(x/2)] truncates toward zero, which on the integer
    channel values is [Z.quot]. *)
Definition averageColour (c1 c2 : Colour) : Colour :=
  let '(c1_0, c1_1, c1_2) := c1 in
  let '(c2_0, c2_1, c2_2) := c2 in
  (Z.quot (c1_0 + c2_1) 2, Z.quot (c1_1 + c2_1) 2, Z.quot (c1_2 + c2_2) 2).

Section ForceLaw.

(** [force_power], read from the variables file. *)
Variable force_power : R.

(** Force on [obj1] by [obj2]. *)
Definition gravity (obj1 obj2 : Body.t) : option Vec.t :=
  let Gmm := G * Body.mass obj1 * Body.mass obj2 in
  let r := Vec.sub (Body.pos obj2) (Body.pos obj1) in
  if decide (Vec.mul r r ≠ 0) then
    p ← py_pow (Vec.mul r r) (force_power / 2);
    let force := Gmm * p in
    d ← math_sqrt (Vec.mul r r);
    u ← Vec.truediv r d;
    Some (Vec.rmul force u)
  else Some (Vec.mk 0 0).

Definition potential (pos : Vec.t) (obj : Body.t) : option R :=
  let Gmm := G * Body.mass obj in
  let r := Vec.sub (Body.pos obj) pos in
  if decide (Vec.mul r r ≠ 0) then
    p ← py_pow (Vec.mul r r) ((force_power + 1) / 2);
    Some (Gmm * p)
  else Some 0.

(** [detransform(Vec(x*dimensions[0]/xpoints,y*dimensions[1]/ypoints))] *)
Definition grid_point (V : View) (xpoints ypoints x y : Z) : option Vec.t :=
  gx ← py_div (IZR (x * fst (dimensions V))) (IZR xpoints);
  gy ← py_div (IZR (y * snd (dimensions V))) (IZR ypoints);
  detransform V (Vec.mk gx gy).

(** One grid cell of [contourLines]: the potentials of all masses are
    summed from [0.0], then the point is kept when [pot % step < res]. *)
Definition contour_cell (V : View) (system : list Body.t)
    (xpoints ypoints : Z) (step res : R) (x y : Z)
    (points : list Vec.t) : option (list Vec.t) :=
  pot ← for_each system
        (λ mass pot, p ← grid_point V xpoints ypoints x y;
                     u ← potential p mass; Some (pot + u)) 0;
  m ← py_mod pot step;
  if decide (m < res) then
    p ← grid_point V xpoints ypoints x y; Some (points ++ [p])
  else Some points.

Definition contourLines (V : View) (system : list Body.t)
    (xpoints ypoints : Z) (step res : R) : option (list Vec.t) :=
  for_each (seqZ 0 xpoints)
    (λ x points,
       for_each (seqZ 0 ypoints)
         (contour_cell V system xpoints ypoints step res x) points)
    [].

End ForceLaw.

(** ** Orbit Sim Beta.py: the game loop *)

(** Every slot of [system] holds an object of its own (each comes from its
    own [Body(...)] call or [copy.copy]), so the registry is a list of
    records updated by index.  The one alias into it is [centre]: either the
    object now in slot [i], or an object outside the registry ([m0], or a
    body that a merge has replaced in its slot), which nothing changes any
    more. *)
Inductive centre_ref : Type :=
  | CentreIn (i : nat)
  | CentreOut (b : Body.t).

(** What the pair scan does, in order: a call of [gravity] on the slots
    [i] and [j] with the two positions it read, or a merge of the two
    slots. *)
Inductive event : Type :=
  | EvForce (i j : nat) (pos_i pos_j : Vec.t)
  | EvMerge (i j : nat).

(** The state of the pair scan: the registry, the list [delete] and the
    centre; [log] is a ghost record of the events so far, for the
    properties about order, and no result depends on it. *)
Record Scan : Type := mkScan {
  system : list Body.t;
  delete_idx : list nat;
  centre : centre_ref;
  log : list event
}.

(** The unnamed [Body(0, 1, Vec(0, 0), Vec(0, 0), (0, 0, 0), ...)] left in
    the higher slot of a merged pair. *)
Definition placeholder : Body.t :=
  Body.new 0 1 (Vec.mk 0 0) (Vec.mk 0 0) (0, 0, 0)%Z EmptyString.

(** [n[k:]] for a start [k] that may be negative. *)
Definition str_from (k : Z) (n : string) : string :=
  let len := Z.of_nat (String.length n) in
  let start := if decide (k < 0)%Z then Z.max 0 (len + k) else Z.min k len in
  substring (Z.to_nat start) (Z.to_nat (len - start)) n.

Definition centre_body (sys : list Body.t) (c : centre_ref) : option Body.t :=
  match c with
  | CentreIn k => sys !! k
  | CentreOut b => Some b
  end.

(** A merge puts new objects in slots [i] and [j]; a [centre] that was one
    of the old ones keeps pointing at it. *)
Definition detach (sys : list Body.t) (i j : nat) (c : centre_ref)
    : centre_ref :=
  match c with
  | CentreIn k =>
      if decide (k = i ∨ k = j)
      then match sys !! k with Some b => CentreOut b | None => c end
      else c
  | CentreOut _ => c
  end.

(** Deleting the slots [ds] moves the later ones down. *)
Definition reindex (sys : list Body.t) (ds : list nat) (c : centre_ref)
    : centre_ref :=
  match c with
  | CentreIn k =>
      if decide (k ∈ ds)
      then match sys !! k with Some b => CentreOut b | None => c end
      else CentreIn (k - length (filter (λ d, d < k)%nat ds))
  | CentreOut _ => c
  end.

Definition trace_period : Z := 4.
Definition trace_cap : Z := 1000.

Record Flags : Type := mkFlags {
  pause : bool;
  tracing : bool;
  trace_clear : bool;
  trace_counter : Z
}.

Section Engine.

Variable force_power : R.
Variable dt : R.

(** ["{:.2E}".format(Decimal(m))], the label of an unnamed body. *)
Variable format_mass : R → string.

(** The name of a merged body, lines 381-386: regenerated from the mass
    when the first name ends in "kg"; the other branch joins two name
    halves and then overwrites the result with the first name. *)
Definition merged_name (b1 b2 : Body.t) : string :=
  let n1 := Body.name b1 in
  if String.eqb (str_from (Z.of_nat (String.length n1) - 2) n1) "kg"
  then (format_mass (Body.mass b1 + Body.mass b2) ++ "kg")%string
  else n1.

(** The body built at lines 375-387 from the two colliding ones. *)
Definition merge (b1 b2 : Body.t) : option Body.t :=
  let m1 := Body.mass b1 in
  let m2 := Body.mass b2 in
  let r1 := Body.rad b1 in
  let r2 := Body.rad b2 in
  r ← py_pow (r1 ^ 3 + r2 ^ 3) (1 / 3);
  let pos := Body.pos b1 in
  vel ← Vec.truediv
        (Vec.add (Vec.rmul m1 (Body.vel b1)) (Vec.rmul m2 (Body.vel b2)))
        (m1 + m2);
  let c := averageColour (Body.colour b1) (Body.colour b2) in
  let name := merged_name b1 b2 in
  Some (Body.new (m1 + m2) r pos vel c name).

(** The [try] block of lines 364-369: both boosts are zero as soon as one
    of the two divisions by a mass raises. *)
Definition impulses (bi bj : Body.t) (force : Vec.t) : Vec.t * Vec.t :=
  match py_div dt (Body.mass bi), py_div (- dt) (Body.mass bj) with
  | Some a1, Some a2 => (Vec.rmul a1 force, Vec.rmul a2 force)
  | _, _ => (Vec.mk 0 0, Vec.mk 0 0)
  end.

(** The test of line 374 on two bodies. *)
Definition collides (bi bj : Body.t) : option bool :=
  ri ← radScale (Body.rad bi);
  rj ← radScale (Body.rad bj);
  collision (Body.pos bi) ri (Body.pos bj) rj.

(** The body of the inner loop for the pair [(i, j)]. *)
Definition pair_step (i j : nat) (st : Scan) : option Scan :=
  bi ← system st !! i;
  bj ← system st !! j;
  force ← gravity force_power bi bj;
  let log1 := log st ++ [EvForce i j (Body.pos bi) (Body.pos bj)] in
  let '(boost1, boost2) := impulses bi bj force in
  let sys1 := <[i := Body.boost boost1 bi]> (system st) in
  bj ← sys1 !! j;
  let sys2 := <[j := Body.boost boost2 bj]> sys1 in
  bi ← sys2 !! i;
  bj ← sys2 !! j;
  hit ← collides bi bj;
  if hit : bool then
    m ← merge bi bj;
    Some (mkScan
            (take i sys2 ++ [m] ++ slice (i + 1) j sys2 ++ [placeholder]
               ++ drop (j + 1) sys2)
            (delete_idx st ++ [j])
            (detach sys2 i j (centre st))
            (log1 ++ [EvMerge i j]))
  else Some (mkScan sys2 (delete_idx st) (centre st) log1).

(** [for i in range(len(system)): for j in range(i+1, len(system))] *)
Definition inner_loop (i : nat) (st : Scan) : option Scan :=
  for_each (seq (i + 1) (length (system st) - (i + 1))) (pair_step i) st.

Definition pair_scan (st : Scan) : option Scan :=
  for_each (seq 0 (length (system st))) inner_loop st.

(** [delete = list(set(delete)); delete.sort(); delete.reverse()] *)
Definition delete_order (ds : list nat) : list nat :=
  reverse (merge_sort le (remove_dups ds)).

(** [for i in range(len(delete)): del system[delete[i]]] *)
Definition delete_slots (sys : list Body.t) (ds : list nat) : list Body.t :=
  foldl (λ sys d, base.delete d sys) sys ds.

(** The per-body part of the last loop that changes the body. *)
Definition advance (F : Flags) (vshift : Vec.t) (mass : Body.t) : Body.t :=
  let mass :=
    if pause F then mass
    else
      let mass := Body.boost (Vec.neg vshift) mass in
      let mass := Body.move dt mass in
      if tracing F then
        if decide (trace_counter F `mod` trace_period = 0)%Z
        then Body.addTrace trace_cap mass else mass
      else mass in
  if trace_clear F then Body.clearTrace mass else mass.

Record World : Type := mkWorld {
  w_system : list Body.t;
  w_centre : centre_ref
}.

(** One pass of the game loop over the registry, lines 359-396 and
    412-421; drawing and the mouse are left out. *)
Definition frame (F : Flags) (w : World) : option World :=
  w1 ← (if pause F then Some w
        else
          st ← pair_scan (mkScan (w_system w) [] (w_centre w) []);
          let ds := delete_order (delete_idx st) in
          Some (mkWorld (delete_slots (system st) ds)
                        (reindex (system st) ds (centre st))));
  c ← centre_body (w_system w1) (w_centre w1);
  let vshift := Body.vel c in
  Some (mkWorld (map (advance F vshift) (w_system w1)) (w_centre w1)).

End Engine.

(** ** Reference definitions and sample inputs *)

(** [m0], the initial system centre, and the start-up view of the program
    on a 1280 by 720 window. *)
Definition m0 : Body.t :=
  Body.new 0 1 (Vec.mk 0 0) (Vec.mk 0 0) (0, 0, 0)%Z EmptyString.

Definition start_view : View :=
  mkView 24 (Vec.mk 0 0) (Vec.mk 640 360) m0 (1280, 720)%Z.

(** Follows the spec's words: the component-wise average of two colours,
    truncated to an integer. *)
Definition component_average (c1 c2 : Colour) : Colour :=
  let '(r1, g1, b1) := c1 in
  let '(r2, g2, b2) := c2 in
  (Z.quot (r1 + r2) 2, Z.quot (g1 + g2) 2, Z.quot (b1 + b2) 2).

(** What can happen to one body between two frames: the calls of body.py
    that the game loop makes on it. *)
Inductive body_op : Type :=
  | OpMove (dt : R)
  | OpBoost (dv : Vec.t)
  | OpShift (dpos : Vec.t)
  | OpAddTrace
  | OpClearTrace.

Definition apply_op (cap : Z) (b : Body.t) (op : body_op) : Body.t :=
  match op with
  | OpMove dt => Body.move dt b
  | OpBoost dv => Body.boost dv b
  | OpShift dpos => Body.shift dpos b
  | OpAddTrace => Body.addTrace cap b
  | OpClearTrace => Body.clearTrace b
  end.

Definition run_ops (cap : Z) (ops : list body_op) (b : Body.t) : Body.t :=
  foldl (apply_op cap) b ops.

(** The length [|r|] of a vector. *)
Definition norm (r : Vec.t) : R := sqrt (Vec.mul r r).

(** The value of [gravity]: the force law in closed form. *)
Definition force (force_power : R) (a b : Body.t) : Vec.t :=
  let r := Vec.sub (Body.pos b) (Body.pos a) in
  if decide (norm r = 0) then Vec.mk 0 0
  else Vec.rmul (G * Body.mass a * Body.mass b * Rpower (norm r) force_power)
         (Vec.mk (Vec.x r / norm r) (Vec.y r / norm r)).

(** The slots that the merges of a log have marked for removal, in
    order. *)
Definition marked (l : list event) : list nat :=
  e ← l; match e with EvMerge _ j => [j] | EvForce _ _ _ _ => [] end.




(** Total momentum and total mass of a registry. *)
Definition momentum (sys : list Body.t) : Vec.t :=
  foldr (λ b acc, Vec.add (Vec.rmul (Body.mass b) (Body.vel b)) acc)
    (Vec.mk 0 0) sys.

Definition total_mass (sys : list Body.t) : R :=
  foldr (λ b acc, Body.mass b + acc) 0 sys.

(** The grid cells in the order [contourLines] visits them: column by
    column. *)
Definition grid_cells (xpoints ypoints : Z) : list (Z * Z) :=
  x ← seqZ 0 xpoints; y ← seqZ 0 ypoints; [(x, y)].

(** No pair of the registry passes the collision test. *)
Definition no_hits (sys : list Body.t) : Prop :=
  ∀ i j bi bj, (i < j)%nat →
    sys !! i = Some bi → sys !! j = Some bj → collides bi bj = Some false.

(** Two records of one body that differ at most in velocity. *)
Definition same_but_vel (b b0 : Body.t) : Prop :=
  Body.mass b = Body.mass b0 ∧ Body.rad b = Body.rad b0
  ∧ Body.pos b = Body.pos b0 ∧ Body.colour b = Body.colour b0
  ∧ Body.name b = Body.name b0 ∧ Body.trace b = Body.trace b0.

(** What a scan without a hit keeps true, from the registry [sys] and the
    centre [c] it started on. *)
Definition quiet_inv (sys : list Body.t) (c : centre_ref) (st : Scan) : Prop :=
  delete_idx st = [] ∧ centre st = c
  ∧ (∀ k b, system st !! k = Some b →
       ∃ b0, sys !! k = Some b0 ∧ same_but_vel b b0)
  ∧ momentum (system st) = momentum sys
  ∧ total_mass (system st) = total_mass sys.

(** A stand-in for the label formatter in sample runs. *)
Definition sample_format (m : R) : string := "0.00E+0".

(** The flags of a running, untraced simulation. *)
Definition running : Flags := mkFlags false false false 0.

(** Two bodies of unit radius ten units apart, and one body on its own. *)
Definition far_a : Body.t :=
  Body.new 10 1 (Vec.mk 0 0) (Vec.mk 1 0) (255, 0, 0)%Z "a".
Definition far_b : Body.t :=
  Body.new 20 1 (Vec.mk 10 0) (Vec.mk 0 1) (0, 255, 0)%Z "b".
Definition lone : Body.t :=
  Body.new 1 1000 (Vec.mk 0 0) (Vec.mk 1 0) (255, 255, 255)%Z "lone".

(** The spec's sample pair: A (mass 10, at (0,0), velocity (1,0)) and
    B (mass 10, at (0.01,0), velocity (-1,0)), both of radius 1000. *)
Definition sample_A : Body.t :=
  Body.new 10 (10 ^ 3) (Vec.mk 0 0) (Vec.mk 1 0) (200, 100, 50)%Z "A".
Definition sample_B : Body.t :=
  Body.new 10 (10 ^ 3) (Vec.mk (1 / 100) 0) (Vec.mk (-1) 0) (100, 50, 30)%Z "B".

(** Mass, radius and position of a body: what the collision test and the
    merge guard depend on. *)
Definition shape (b : Body.t) : R * R * Vec.t :=
  (Body.mass b, Body.rad b, Body.pos b).

(** Follows the spec's words: a slot that a merge has marked for removal
    takes no part in a later merge of the same scan. *)
Definition no_reuse (l : list event) : Prop :=
  ∀ pre i j post,
    l = pre ++ EvMerge i j :: post → (i ∉ marked pre) ∧ (j ∉ marked pre).


(** Three bodies of radius 10^6: two on one spot at (5,0), and a third,
    either at the origin or far off at (100,0). *)
Definition twin_1 : Body.t :=
  Body.new 10 (10 ^ 6) (Vec.mk 5 0) (Vec.mk 0 0) (255, 0, 0)%Z "one".
Definition twin_2 : Body.t :=
  Body.new 10 (10 ^ 6) (Vec.mk 5 0) (Vec.mk 0 0) (0, 255, 0)%Z "two".
Definition at_origin : Body.t :=
  Body.new 10 (10 ^ 6) (Vec.mk 0 0) (Vec.mk 0 0) (0, 0, 255)%Z "three".
Definition far_off : Body.t :=
  Body.new 10 (10 ^ 6) (Vec.mk 100 0) (Vec.mk 0 0) (0, 0, 255)%Z "three".

(** ** Further reference definitions *)

(** A list without the entries whose index, counted from [k], is in [ds]:
    what deleting the slots [ds] should leave. *)
Fixpoint omit_from {A : Type} (ds : list nat) (k : nat) (l : list A)
    : list A :=
  match l with
  | [] => []
  | a :: l' =>
      if decide (k ∈ ds) then omit_from ds (S k) l'
      else a :: omit_from ds (S k) l'
  end.

Definition omit {A : Type} (ds : list nat) (l : list A) : list A :=
  omit_from ds 0 l.

(** A centre that denotes a body: a slot of a registry of [n] bodies, or a
    body outside it. *)
Definition centre_ok (n : nat) (c : centre_ref) : Prop :=
  match c with
  | CentreIn k => (k < n)%nat
  | CentreOut _ => True
  end.

(** What every scan keeps true of the delete list and the centre, on a
    registry of [n] bodies. *)
Definition marks_inv (n : nat) (st : Scan) : Prop :=
  Forall (λ d, 0 < d < n)%nat (delete_idx st) ∧ centre_ok n (centre st).

(** What a scan keeps true of the masses: none is negative and, when
    [strict] holds, every slot that is not marked for removal holds a body
    of positive mass and positive radius. *)
Definition masses_inv (strict : Prop) (st : Scan) : Prop :=
  ∀ k b, system st !! k = Some b →
    0 <= Body.mass b
    ∧ (strict → k ∉ delete_idx st → 0 < Body.mass b ∧ 0 < Body.rad b).

(** [apply_op] with a trace that is never cut: a ghost run that keeps
    every recorded point since the last clear. *)
Definition apply_op_uncut (b : Body.t) (op : body_op) : Body.t :=
  match op with
  | OpMove dt => Body.move dt b
  | OpBoost dv => Body.boost dv b
  | OpShift dpos => Body.shift dpos b
  | OpAddTrace => Body.set_trace (Body.trace b ++ [Body.trace_point b]) b
  | OpClearTrace => Body.clearTrace b
  end.

Definition run_ops_uncut (ops : list body_op) (b : Body.t) : Body.t :=
  foldl apply_op_uncut b ops.

(** ** vector.py: [__pow__] on any integer *)

(** A value that [Vec.__mul__] can meet as its right operand. *)
Inductive pyval : Type :=
  | PyVec (v : Vec.t)
  | PyNum (a : R).

(** [self * other]: the dot product reads [other.getX()], which only a
    vector has (AttributeError on a number). *)
Definition vec_mul (self : Vec.t) (other : pyval) : option R :=
  match other with
  | PyVec w => Some (Vec.mul self w)
  | PyNum _ => None
  end.

(** [self ** (n + 1)]: [self] for exponent 1, else
    [self * (self ** (other - 1))]. *)
Fixpoint vec_pow_from_1 (self : Vec.t) (n : nat) : option pyval :=
  match n with
  | O => Some (PyVec self)
  | S n' =>
      r ← vec_pow_from_1 self n';
      a ← vec_mul self r;
      Some (PyNum a)
  end.

(** [self ** other] for an integer [other]: below 1 the recursion never
    meets [other == 1] and ends in a RecursionError. *)
Definition vec_pow (self : Vec.t) (other : Z) : option pyval :=
  if decide (other < 1)%Z then None
  else vec_pow_from_1 self (Z.to_nat (other - 1)).

(** ** Orbit Sim Beta.py: the keys *)

(** [dt_step], [scale_step] *)
Definition dt_step : R := 5 / 10.
Definition scale_step : R := 105 / 100.

(** The keys that [pygame.key.get_pressed()] reports and the loop reads. *)
Record Keys : Type := mkKeys {
  K_LEFTBRACKET : bool;
  K_RIGHTBRACKET : bool;
  K_EQUALS : bool;
  K_MINUS : bool;
  K_UP : bool;
  K_DOWN : bool;
  K_LEFT : bool;
  K_RIGHT : bool
}.

(** The globals the keys change: [dt], [scale], [scroll_speed], [shift]. *)
Record Controls : Type := mkControls {
  c_dt : R;
  c_scale : R;
  c_scroll_speed : R;
  c_shift : Vec.t
}.

(** Lines 294-312 and 402-410 of one pass of the loop: the arrow flags are
    set from the keys, used for the shift and reset in the same pass.  The
    divisions are by the constant [scale_step] and cannot raise. *)
Definition handle_keys (K : Keys) (C : Controls) : Controls :=
  let dt := c_dt C in
  let dt := if K_LEFTBRACKET K then dt - dt_step else dt in
  let dt := if K_RIGHTBRACKET K then dt + dt_step else dt in
  let scale := c_scale C in
  let scroll_speed := c_scroll_speed C in
  let '(scale, scroll_speed) :=
    if K_EQUALS K then (scale * scale_step, scroll_speed / scale_step)
    else (scale, scroll_speed) in
  let '(scale, scroll_speed) :=
    if K_MINUS K then (scale / scale_step, scroll_speed * scale_step)
    else (scale, scroll_speed) in
  let shift := c_shift C in
  let shift :=
    if K_UP K then Vec.add shift (Vec.mk 0 scroll_speed) else shift in
  let shift :=
    if K_DOWN K then Vec.sub shift (Vec.mk 0 scroll_speed) else shift in
  let shift :=
    if K_LEFT K then Vec.add shift (Vec.mk scroll_speed 0) else shift in
  let shift :=
    if K_RIGHT K then Vec.sub shift (Vec.mk scroll_speed 0) else shift in
  mkControls dt scale scroll_speed shift.

(** The start-up values: [dt = 1], [scale = 24.0], [scroll_speed = 0.25],
    [shift = Vec(0,0)]. *)
Definition start_controls : Controls :=
  mkControls 1 24 (25 / 100) (Vec.mk 0 0).

(** The controls after a run of passes, one set of keys each. *)
Definition run_keys (Ks : list Keys) (C : Controls) : Controls :=
  foldl (λ C K, handle_keys K C) C Ks.

(** ** The sampler, cell by cell *)

(** The potential that [contourLines] sums for the cell [c], and its test
    [pot % step < res]. *)
Definition cell_potential (force_power : R) (V : View) (system : list Body.t)
    (xpoints ypoints : Z) (c : Z * Z) : option R :=
  for_each system
    (λ mass pot, p ← grid_point V xpoints ypoints c.1 c.2;
                 u ← potential force_power p mass; Some (pot + u)) 0.

Definition cell_kept (force_power : R) (V : View) (system : list Body.t)
    (xpoints ypoints : Z) (step res : R) (c : Z * Z) : option bool :=
  pot ← cell_potential force_power V system xpoints ypoints c;
  m ← py_mod pot step;
  Some (bool_decide (m < res)).

(** ** The integrator's law *)







(** * Properties *)

(** ** Small facts about the arithmetic *)

Lemma Vec_eq (v w : Vec.t) : Vec.x v = Vec.x w → Vec.y v = Vec.y w → v = w.
Proof. destruct v, w; simpl; congruence. Qed.

Lemma py_div_Some (a b : R) : b ≠ 0 → py_div a b = Some (a / b).
Proof. intros Hb. unfold py_div. case_decide; [contradiction | reflexivity]. Qed.

Lemma truediv_Some (v : Vec.t) (k : R) :
  k ≠ 0 → Vec.truediv v k = Some (Vec.mk (Vec.x v / k) (Vec.y v / k)).
Proof. intros Hk. unfold Vec.truediv. rewrite !py_div_Some by exact Hk. reflexivity. Qed.

Lemma dot_self_nonneg (r : Vec.t) : 0 <= Vec.mul r r.
Proof. unfold Vec.mul. nra. Qed.

Lemma dot_self_zero (r : Vec.t) : Vec.mul r r = 0 ↔ r = Vec.mk 0 0.
Proof.
  split.
  - intros H. unfold Vec.mul in H. apply Vec_eq; simpl; nra.
  - intros ->. unfold Vec.mul; simpl. ring.
Qed.

(** ** CoordinateTransform *)

(** C7: with a nonzero scale, [detransform] undoes [transform] on every
    world point, and [transform] undoes [detransform] on every view point:
    the two are mutual inverses. *)
Theorem detransform_transform_inverse (V : View) (p : Vec.t) :
  scale V ≠ 0 →
  detransform V (transform V p) = Some p
  ∧ ∃ w, detransform V p = Some w ∧ transform V w = p.
Proof.
  intros Hs. unfold detransform, transform. split.
  - rewrite truediv_Some by exact Hs. simpl. f_equal.
    apply Vec_eq; simpl; field; exact Hs.
  - rewrite truediv_Some by exact Hs. simpl. eexists. split; [reflexivity|].
    apply Vec_eq; simpl; field; exact Hs.
Qed.

Lemma detransform_transform_inverse_witness :
  detransform start_view (transform start_view (Vec.mk 3 (-2)))
    = Some (Vec.mk 3 (-2))
  ∧ ∃ w, detransform start_view (Vec.mk 3 (-2)) = Some w
         ∧ transform start_view w = Vec.mk 3 (-2).
Proof.
  apply (detransform_transform_inverse start_view (Vec.mk 3 (-2))).
  simpl. lra.
Defined.

(** ** Colour of a merged body *)

(** C8: the red channel of [averageColour] adds the first colour's red to
    the second colour's green: on (100,0,0) and (0,50,0) the code gives
    (75,25,0) where the component-wise average is (50,25,0). *)
Theorem averageColour_mixes_channels :
  averageColour (100, 0, 0)%Z (0, 50, 0)%Z = (75, 25, 0)%Z
  ∧ component_average (100, 0, 0)%Z (0, 50, 0)%Z = (50, 25, 0)%Z
  ∧ ∀ r1 g1 b1 r2 g2 b2 : Z,
      averageColour (r1, g1, b1) (r2, g2, b2)
      = (Z.quot (r1 + g2) 2, Z.quot (g1 + g2) 2, Z.quot (b1 + b2) 2).
Proof. repeat split. Qed.

(** ** TraceBuffer *)

Lemma addTrace_trace (cap : Z) (b : Body.t) :
  Body.trace (Body.addTrace cap b)
  = (if decide (Z.of_nat (length (Body.trace b)) >= cap)%Z
     then drop 1 (Body.trace b) else Body.trace b) ++ [Body.trace_point b].
Proof. unfold Body.addTrace. case_decide; reflexivity. Qed.

(** C10 as claimed fails on an empty history with cap 0: the length is at
    the cap, and the call makes it 1. *)
Lemma addTrace_empty_cap0_grows :
  let b := Body.new 1 1 (Vec.mk 0 0) (Vec.mk 0 0) (0, 0, 0)%Z EmptyString in
  (Z.of_nat (length (Body.trace b)) >= 0)%Z
  ∧ length (Body.trace (Body.addTrace 0 b)) ≠ length (Body.trace b).
Proof. simpl. split; [lia | discriminate]. Qed.

(** C10, amended: one [addTrace] call keeps the history but for at most
    its first entry and appends one point.  Below the cap the length grows
    by one; at or above the cap it stays the same on a history that has an
    entry, and goes from 0 to 1 on an empty one; it is never cut down to a
    cap below the length. *)
Theorem addTrace_length (cap : Z) (b : Body.t) :
  let n := length (Body.trace b) in
  length (Body.trace (Body.addTrace cap b))
  = (if decide (Z.of_nat n < cap)%Z then S n else Nat.max 1 n)
  ∧ ∃ k : nat, (k <= 1)%nat
      ∧ Body.trace (Body.addTrace cap b)
        = drop k (Body.trace b) ++ [Body.trace_point b].
Proof.
  simpl. rewrite addTrace_trace. split.
  - rewrite length_app. simpl.
    repeat case_decide; try lia.
    rewrite length_drop. destruct (Body.trace b); simpl; lia.
  - case_decide; [exists 1%nat | exists 0%nat]; split; auto.
Qed.

(** C6 as claimed fails for cap 0: the first record on a new body leaves
    one entry. *)
Lemma trace_exceeds_cap0 :
  let b := Body.new 1 1 (Vec.mk 0 0) (Vec.mk 0 0) (0, 0, 0)%Z EmptyString in
  ¬ (Z.of_nat (length (Body.trace (run_ops 0 [OpAddTrace] b))) <= 0)%Z.
Proof. simpl. lia. Qed.

Lemma apply_op_trace_bound (cap : Z) (op : body_op) (b : Body.t) :
  (1 <= cap)%Z →
  (Z.of_nat (length (Body.trace b)) <= cap)%Z →
  (Z.of_nat (length (Body.trace (apply_op cap b op))) <= cap)%Z.
Proof.
  intros Hcap Hb. destruct op; simpl; try assumption; try lia.
  rewrite addTrace_trace, length_app. simpl.
  case_decide; [rewrite length_drop|]; lia.
Qed.

(** C6, amended: for a cap of at least 1 and a history within the cap (a
    new or cleared body has none), whatever moves, boosts, shifts, clears
    and records follow with that cap, the history stays within the cap;
    and a record made at the cap gives the old history without its first
    (oldest) entry, followed by the new point. *)
Theorem trace_within_cap (cap : Z) (ops : list body_op) (b : Body.t) :
  (1 <= cap)%Z →
  (Z.of_nat (length (Body.trace b)) <= cap)%Z →
  let b' := run_ops cap ops b in
  (Z.of_nat (length (Body.trace b')) <= cap)%Z
  ∧ ((Z.of_nat (length (Body.trace b')) = cap)%Z →
     Body.trace (Body.addTrace cap b')
     = drop 1 (Body.trace b') ++ [Body.trace_point b']).
Proof.
  intros Hcap Hb. simpl. split.
  - revert b Hb. unfold run_ops.
    induction ops as [|op ops IH]; intros b Hb; simpl; [exact Hb|].
    apply IH, apply_op_trace_bound; assumption.
  - intros Hfull. rewrite addTrace_trace. case_decide; [reflexivity | lia].
Qed.

Lemma trace_within_cap_witness :
  let b := Body.new 1 1 (Vec.mk 0 0) (Vec.mk 1 0) (0, 0, 0)%Z EmptyString in
  let b' :=
    run_ops 2 [OpAddTrace; OpMove 1; OpAddTrace; OpMove 1; OpAddTrace] b in
  (Z.of_nat (length (Body.trace b')) <= 2)%Z
  ∧ ((Z.of_nat (length (Body.trace b')) = 2)%Z →
     Body.trace (Body.addTrace 2 b')
     = drop 1 (Body.trace b') ++ [Body.trace_point b']).
Proof.
  apply (trace_within_cap 2
           [OpAddTrace; OpMove 1; OpAddTrace; OpMove 1; OpAddTrace]
           (Body.new 1 1 (Vec.mk 0 0) (Vec.mk 1 0) (0, 0, 0)%Z EmptyString));
    simpl; lia.
Defined.

(** ** ForceModel *)

Lemma norm_zero (r : Vec.t) : norm r = 0 ↔ Vec.mul r r = 0.
Proof.
  unfold norm. split.
  - apply sqrt_eq_0, dot_self_nonneg.
  - intros ->. apply sqrt_0.
Qed.

Lemma Rpower_half (a p : R) : 0 < a → Rpower a (p / 2) = Rpower (sqrt a) p.
Proof.
  intros Ha. rewrite <- (Rpower_sqrt a Ha), Rpower_mult.
  f_equal. field.
Qed.

Lemma gravity_force (force_power : R) (a b : Body.t) :
  gravity force_power a b = Some (force force_power a b).
Proof.
  unfold gravity, force.
  set (r := Vec.sub (Body.pos b) (Body.pos a)).
  pose proof (dot_self_nonneg r) as Hnn.
  destruct (decide (Vec.mul r r ≠ 0)) as [Hne | He];
    destruct (decide (norm r = 0)) as [Hz | Hnz]; try reflexivity.
  - exfalso. apply norm_zero in Hz. contradiction.
  - assert (0 < Vec.mul r r) as Hpos by lra.
    unfold py_pow, math_sqrt.
    rewrite (decide_True _ _ Hpos), (decide_True _ _ Hnn). simpl.
    rewrite truediv_Some by exact Hnz.
    rewrite (Rpower_half _ _ Hpos). reflexivity.
  - exfalso. apply Hnz, norm_zero.
    destruct (decide (Vec.mul r r = 0)); [assumption | contradiction].
Qed.

(** C4: with [r = pos b - pos a], [r.r = rx*rx + ry*ry] and
    [|r| = sqrt (r.r)]: on coincident positions [gravity a b] returns the
    zero vector, no division being reached; and whenever [gravity a b]
    returns a vector, that vector is the zero vector when [r.r] is 0 and,
    component by component, [G * mass a * mass b * |r|^p * (r/|r|)] when
    [r.r] is not 0. *)
Theorem gravity_formula (force_power : R) (a b : Body.t) :
  let rx := Vec.x (Body.pos b) - Vec.x (Body.pos a) in
  let ry := Vec.y (Body.pos b) - Vec.y (Body.pos a) in
  let rr := rx * rx + ry * ry in
  let d := sqrt rr in
  (Body.pos a = Body.pos b →
   gravity force_power a b = Some (Vec.mk 0 0))
  ∧ ∀ v, gravity force_power a b = Some v →
      (rr = 0 → Vec.x v = 0 ∧ Vec.y v = 0)
      ∧ (rr ≠ 0 →
         Vec.x v
         = G * Body.mass a * Body.mass b * Rpower d force_power * (rx / d)
         ∧ Vec.y v
           = G * Body.mass a * Body.mass b * Rpower d force_power
             * (ry / d)).
Proof.
  cbv zeta. split.
  - intros Hpos. unfold gravity. rewrite Hpos.
    rewrite decide_False; [reflexivity|].
    intros Hne. apply Hne. unfold Vec.mul. simpl. ring.
  - intros v Hv. rewrite gravity_force in Hv. injection Hv as <-.
    pose proof (dot_self_nonneg (Vec.sub (Body.pos b) (Body.pos a))) as Hnn.
    unfold force, norm, Vec.mul in *. simpl in *.
    set (rr := (Vec.x (Body.pos b) - Vec.x (Body.pos a))
               * (Vec.x (Body.pos b) - Vec.x (Body.pos a))
               + (Vec.y (Body.pos b) - Vec.y (Body.pos a))
                 * (Vec.y (Body.pos b) - Vec.y (Body.pos a))) in *.
    split.
    + intros Hz. rewrite Hz, sqrt_0.
      rewrite decide_True by reflexivity. split; reflexivity.
    + intros Hnz.
      assert (sqrt rr ≠ 0) as Hd.
      { intros Hs. apply sqrt_eq_0 in Hs; [contradiction | exact Hnn]. }
      rewrite decide_False by exact Hd. simpl. split; reflexivity.
Qed.

Lemma gravity_formula_witness :
  ∃ v, gravity (-2) far_a far_b = Some v
       ∧ Vec.x v
         = G * 10 * 20 * Rpower (sqrt ((10 - 0) * (10 - 0) + (0 - 0) * (0 - 0)))
                           (-2)
           * ((10 - 0) / sqrt ((10 - 0) * (10 - 0) + (0 - 0) * (0 - 0)))
       ∧ Vec.y v
         = G * 10 * 20 * Rpower (sqrt ((10 - 0) * (10 - 0) + (0 - 0) * (0 - 0)))
                           (-2)
           * ((0 - 0) / sqrt ((10 - 0) * (10 - 0) + (0 - 0) * (0 - 0))).
Proof.
  exists (force (-2) far_a far_b).
  split; [apply gravity_force|].
  destruct (gravity_formula (-2) far_a far_b) as [_ Hret].
  destruct (Hret (force (-2) far_a far_b) (gravity_force (-2) far_a far_b))
    as [_ Hval].
  apply Hval. simpl. lra.
Defined.

(** ** PotentialFieldSampler *)

Lemma py_mod_zero (step : R) : step ≠ 0 → py_mod 0 step = Some 0.
Proof.
  intros Hs. unfold py_mod. rewrite (decide_False _ _ Hs). f_equal.
  replace (0 / step) with 0 by (unfold Rdiv; ring).
  rewrite <- (Int_part_spec 0 0) by (simpl; lra). simpl. ring.
Qed.

(** A loop whose body appends, for the item [a], points related to the
    cells [h a], appends points related to all cells in order. *)
Lemma for_each_collect {A B C : Type} (P : B → C → Prop) (h : A → list C)
    (body : A → list B → option (list B)) (l : list A) :
  (∀ a acc, a ∈ l →
     ∃ ps, body a acc = Some (acc ++ ps) ∧ Forall2 P ps (h a)) →
  ∀ acc, ∃ pts,
    for_each l body acc = Some (acc ++ pts) ∧ Forall2 P pts (l ≫= h).
Proof.
  induction l as [|a l IH]; intros Hbody acc; simpl.
  - exists []. rewrite app_nil_r. split; [reflexivity | constructor].
  - destruct (Hbody a acc) as (ps & Hps & HP); [left|].
    rewrite Hps. simpl.
    destruct (IH (λ a' acc' Ha', Hbody a' acc' (list_elem_of_further _ _ _ Ha'))
                 (acc ++ ps)) as (pts & Hpts & HPts).
    exists (ps ++ pts). rewrite Hpts, app_assoc. split; [reflexivity|].
    apply Forall2_app; assumption.
Qed.

Lemma grid_point_Some (V : View) (xpoints ypoints x y : Z) :
  scale V ≠ 0 → x ∈ seqZ 0 xpoints → y ∈ seqZ 0 ypoints →
  ∃ p, grid_point V xpoints ypoints x y = Some p.
Proof.
  intros Hs Hx Hy. apply elem_of_seqZ in Hx, Hy. unfold grid_point.
  rewrite !py_div_Some by (apply not_0_IZR; lia). simpl.
  unfold detransform. rewrite truediv_Some by exact Hs. simpl. eauto.
Qed.

(** C5 as claimed fails: with no bodies, one grid cell and the program's
    own step and tolerance, the sampler returns that cell's point. *)
Lemma contourLines_no_bodies_nonempty :
  contourLines 0 start_view [] 1 1 (10 * / 10 ^ 5) (2 * / 10 ^ 5)
  = Some [Vec.mk (- (640 / 24)) (- (360 / 24))]
  ∧ contourLines 0 start_view [] 1 1 (10 * / 10 ^ 5) (2 * / 10 ^ 5)
    ≠ Some [].
Proof.
  assert (contourLines 0 start_view [] 1 1 (10 * / 10 ^ 5) (2 * / 10 ^ 5)
          = Some [Vec.mk (- (640 / 24)) (- (360 / 24))]) as E.
  { unfold contourLines, contour_cell. simpl.
    rewrite py_mod_zero by lra. simpl.
    rewrite decide_True by lra.
    unfold grid_point. simpl.
    rewrite !py_div_Some by lra. simpl.
    unfold detransform. rewrite truediv_Some by (simpl; lra). simpl.
    f_equal. f_equal. apply Vec_eq; cbv [Z.of_nat Z.add Z.mul]; simpl; lra. }
  split; [exact E | rewrite E; discriminate].
Qed.

(** C5, amended: with no bodies the summed potential is 0 in every cell,
    and [0 % step] is 0 for a step other than 0, so the sampler returns the
    point of every grid cell, in scan order, when the tolerance is above 0,
    and no point otherwise.  The inclusion test is as claimed, for any
    registry: a cell's point is appended exactly when the summed potential
    modulo the step is below the tolerance. *)
Theorem contourLines_no_bodies (force_power : R) (V : View)
    (xpoints ypoints : Z) (step res : R) :
  step ≠ 0 →
  (0 < res → scale V ≠ 0) →
  (∃ pts,
     contourLines force_power V [] xpoints ypoints step res = Some pts
     ∧ if decide (0 < res)
       then Forall2 (λ p c, grid_point V xpoints ypoints c.1 c.2 = Some p)
              pts (grid_cells xpoints ypoints)
       else pts = [])
  ∧ (∀ (system : list Body.t) (x y : Z) (points : list Vec.t) (pot m : R)
       (p : Vec.t),
       for_each system
         (λ mass pot, p ← grid_point V xpoints ypoints x y;
                      u ← potential force_power p mass; Some (pot + u)) 0
       = Some pot →
       py_mod pot step = Some m →
       grid_point V xpoints ypoints x y = Some p →
       contour_cell force_power V system xpoints ypoints step res x y points
       = Some (if decide (m < res) then points ++ [p] else points)).
Proof.
  intros Hstep Hscale. split.
  2: { intros system x y points pot m p Hpot Hm Hp. unfold contour_cell.
       rewrite Hpot. simpl. rewrite Hm. simpl.
       case_decide; [rewrite Hp|]; reflexivity. }
  unfold contourLines, grid_cells.
  set (P := λ (p : Vec.t) (c : Z * Z),
              grid_point V xpoints ypoints c.1 c.2 = Some p).
  destruct (decide (0 < res)) as [Hres | Hres].
  - specialize (Hscale Hres).
    apply (for_each_collect P (λ x, y ← seqZ 0 ypoints; [(x, y)])).
    intros x acc Hx.
    apply (for_each_collect P (λ y, [(x, y)])).
    intros y acc' Hy. unfold contour_cell. simpl.
    rewrite py_mod_zero by exact Hstep. simpl.
    rewrite (decide_True _ _ Hres).
    destruct (grid_point_Some V xpoints ypoints x y Hscale Hx Hy) as [p Hp].
    rewrite Hp. simpl. exists [p]. split; [reflexivity|].
    repeat constructor. exact Hp.
  - destruct (for_each_collect P (λ _ : Z, @nil (Z * Z))
                (λ x points,
                   for_each (seqZ 0 ypoints)
                     (contour_cell force_power V [] xpoints ypoints step res x)
                     points)
                (seqZ 0 xpoints)) with (acc := @nil Vec.t)
      as (pts & Hpts & HP).
    + intros x acc _. exists [].
      destruct (for_each_collect P (λ _ : Z, @nil (Z * Z))
                  (contour_cell force_power V [] xpoints ypoints step res x)
                  (seqZ 0 ypoints)) with (acc := acc)
        as (ps & Hps & HPs).
      * intros y acc' _. exists []. unfold contour_cell. simpl.
        rewrite py_mod_zero by exact Hstep. simpl.
        rewrite (decide_False _ _ Hres), app_nil_r.
        split; [reflexivity | constructor].
      * assert (ps = []) as ->.
        { clear Hps. induction (seqZ 0 ypoints); simpl in HPs;
            [inversion HPs; reflexivity | auto]. }
        split; [exact Hps | constructor].
    + assert (pts = []) as ->.
      { clear Hpts. induction (seqZ 0 xpoints); simpl in HP;
          [inversion HP; reflexivity | auto]. }
      exists []. split; [exact Hpts | reflexivity].
Qed.

Lemma contourLines_no_bodies_witness :
  ∃ pts,
    contourLines (-2) start_view [] 2 2 (10 * / 10 ^ 5) (2 * / 10 ^ 5)
      = Some pts
    ∧ if decide (0 < 2 * / 10 ^ 5)
      then Forall2 (λ p c, grid_point start_view 2 2 c.1 c.2 = Some p)
             pts (grid_cells 2 2)
      else pts = [].
Proof.
  apply (contourLines_no_bodies (-2) start_view 2 2
           (10 * / 10 ^ 5) (2 * / 10 ^ 5)).
  - lra.
  - intros _. simpl. lra.
Defined.

(** ** The pair scan *)

Lemma for_each_inv {A S : Type} (I : S → Prop) (l : list A)
    (body : A → S → option S) (s s' : S) :
  (∀ a t t', a ∈ l → I t → body a t = Some t' → I t') →
  I s → for_each l body s = Some s' → I s'.
Proof.
  revert s. induction l as [|a l IH]; intros s Hbody Hs; simpl.
  - intros [= <-]. exact Hs.
  - destruct (body a s) as [t|] eqn:Hb; simpl; [|discriminate].
    apply IH.
    + intros a' u u' Ha'. apply Hbody. right. exact Ha'.
    + apply (Hbody a s t); [left | exact Hs | exact Hb].
Qed.

Lemma for_each_total {A S : Type} (I : S → Prop) (l : list A)
    (body : A → S → option S) (s : S) :
  (∀ a t, a ∈ l → I t → ∃ t', body a t = Some t' ∧ I t') →
  I s → ∃ s', for_each l body s = Some s' ∧ I s'.
Proof.
  revert s. induction l as [|a l IH]; intros s Hbody Hs; simpl.
  - eauto.
  - destruct (Hbody a s) as (t & Hb & Ht); [left | exact Hs |].
    rewrite Hb. simpl. apply IH; [|exact Ht].
    intros a' u Ha'. apply Hbody. right. exact Ha'.
Qed.

(** The list built at lines 387-388 is the registry with slots [i] and
    [j] replaced. *)
Lemma replace_slots {A : Type} (l : list A) (i j : nat) (m p : A) :
  (i < j)%nat → (j < length l)%nat →
  take i l ++ [m] ++ slice (i + 1) j l ++ [p] ++ drop (j + 1) l
  = <[j := p]> (<[i := m]> l).
Proof.
  intros Hij Hj. unfold slice.
  rewrite (insert_take_drop (<[i:=m]> l) j) by (rewrite length_insert; lia).
  rewrite take_insert_lt by lia.
  rewrite drop_insert_lt by lia.
  rewrite (insert_take_drop (take j l) i) by (rewrite length_take; lia).
  rewrite take_take, Nat.min_l by lia.
  rewrite take_drop_commute.
  replace (i + 1 + (j - (i + 1)))%nat with j by lia.
  replace (i + 1)%nat with (S i) by lia.
  replace (j + 1)%nat with (S j) by lia.
  simpl. rewrite <- !app_assoc. reflexivity.
Qed.

Lemma impulses_cases (dt : R) (bi bj : Body.t) (f : Vec.t) :
  impulses dt bi bj f
  = if decide (Body.mass bi = 0 ∨ Body.mass bj = 0)
    then (Vec.mk 0 0, Vec.mk 0 0)
    else (Vec.rmul (dt / Body.mass bi) f, Vec.rmul (- dt / Body.mass bj) f).
Proof.
  unfold impulses, py_div.
  destruct (decide (Body.mass bi = 0)), (decide (Body.mass bj = 0));
    case_decide; try reflexivity; tauto.
Qed.

(** The two boosts of a pair carry opposite momentum. *)
Lemma impulses_balance (dt : R) (bi bj : Body.t) (f : Vec.t) :
  Vec.add (Vec.rmul (Body.mass bi) (impulses dt bi bj f).1)
          (Vec.rmul (Body.mass bj) (impulses dt bi bj f).2)
  = Vec.mk 0 0.
Proof.
  rewrite impulses_cases.
  case_decide as Hm; simpl.
  - apply Vec_eq; simpl; ring.
  - assert (Body.mass bi ≠ 0) as Hi by tauto.
    assert (Body.mass bj ≠ 0) as Hj by tauto.
    apply Vec_eq; simpl; field; auto.
Qed.

Section EngineFacts.

Variables force_power dt : R.
Variable format_mass : R → string.

(** One pair step, with the two look-ups resolved. *)
Lemma pair_step_eq (i j : nat) (st : Scan) (bi bj : Body.t) :
  (i < j)%nat →
  system st !! i = Some bi →
  system st !! j = Some bj →
  pair_step force_power dt format_mass i j st
  = let f := force force_power bi bj in
    let bi' := Body.boost (impulses dt bi bj f).1 bi in
    let bj' := Body.boost (impulses dt bi bj f).2 bj in
    let sys2 := <[j := bj']> (<[i := bi']> (system st)) in
    let log1 := log st ++ [EvForce i j (Body.pos bi) (Body.pos bj)] in
    hit ← collides bi bj;
    if hit : bool then
      m ← merge format_mass bi' bj';
      Some (mkScan (<[j := placeholder]> (<[i := m]> sys2))
              (delete_idx st ++ [j])
              (detach sys2 i j (centre st))
              (log1 ++ [EvMerge i j]))
    else Some (mkScan sys2 (delete_idx st) (centre st) log1).
Proof.
  intros Hij Hi Hj.
  assert (i < length (system st))%nat as Hil by (eapply lookup_lt_Some; eauto).
  assert (j < length (system st))%nat as Hjl by (eapply lookup_lt_Some; eauto).
  unfold pair_step. rewrite Hi, Hj. simpl.
  rewrite gravity_force. simpl.
  destruct (impulses dt bi bj (force force_power bi bj)) as [b1 b2]. simpl.
  rewrite (list_lookup_insert_ne _ i j) by lia. rewrite Hj. simpl.
  rewrite (list_lookup_insert_ne _ j i) by lia.
  rewrite !list_lookup_insert_eq by (rewrite ?length_insert; lia). simpl.
  change (collides (Body.boost b1 bi) (Body.boost b2 bj))
    with (collides bi bj).
  destruct (collides bi bj) as [[|]|]; simpl; try reflexivity.
  destruct (merge format_mass (Body.boost b1 bi) (Body.boost b2 bj));
    simpl; [|reflexivity].
  f_equal. f_equal. apply (replace_slots _ i j); [exact Hij|].
  rewrite !length_insert. exact Hjl.
Qed.

(** A property kept by every pair step on slots in range, together with
    the length of the registry, is kept by the whole scan. *)
Lemma pair_scan_inv (I : Scan → Prop) (n : nat) (st st' : Scan) :
  (∀ i j t t', (i < j)%nat → (j < n)%nat →
     I t → length (system t) = n →
     pair_step force_power dt format_mass i j t = Some t' →
     I t' ∧ length (system t') = n) →
  I st → length (system st) = n →
  pair_scan force_power dt format_mass st = Some st' →
  I st' ∧ length (system st') = n.
Proof.
  intros Hstep HI Hn Hscan. unfold pair_scan in Hscan.
  refine (for_each_inv (λ t, I t ∧ length (system t) = n)
            _ _ _ _ _ (conj HI Hn) Hscan).
  intros i t t' _ [HIt Hnt] Hin. unfold inner_loop in Hin.
  refine (for_each_inv (λ u, I u ∧ length (system u) = n)
            _ _ _ _ _ (conj HIt Hnt) Hin).
  intros j u u' Hj [HIu Hnu] Hs. apply elem_of_seq in Hj.
  apply (Hstep i j u u'); try assumption; lia.
Qed.

End EngineFacts.

(** ** Evaluating the collision test *)

Lemma ln_10_pos : 0 < ln 10.
Proof. rewrite <- ln_1. apply ln_increasing; lra. Qed.

Lemma radScale_eq (rad : R) :
  0 < rad →
  radScale rad = Some (25 / 10 * (ln rad / ln 10 / 10 ^ 2 - 30 / 1000)).
Proof.
  intros Hr. unfold radScale, math_log.
  rewrite (decide_True _ _ Hr), decide_True by lra.
  rewrite py_div_Some by (pose proof ln_10_pos; lra). reflexivity.
Qed.

Lemma radScale_pow10 (k : nat) :
  radScale (10 ^ k) = Some (25 / 10 * (INR k / 10 ^ 2 - 30 / 1000)).
Proof.
  rewrite radScale_eq by (apply pow_lt; lra).
  rewrite ln_pow by lra. do 3 f_equal.
  field. pose proof ln_10_pos. lra.
Qed.

Lemma radScale_below (rad : R) (k : nat) :
  0 < rad → rad < 10 ^ k →
  ∃ v, radScale rad = Some v ∧ v < 25 / 10 * (INR k / 10 ^ 2 - 30 / 1000).
Proof.
  intros Hr Hk. rewrite radScale_eq by exact Hr. eexists. split; [reflexivity|].
  pose proof ln_10_pos as H10.
  assert (ln rad < INR k * ln 10) as Hln.
  { rewrite <- ln_pow by lra. apply ln_increasing; assumption. }
  assert (ln rad / ln 10 < INR k) as Hq.
  { apply (Rmult_lt_reg_r (ln 10)); [exact H10|].
    unfold Rdiv. rewrite Rmult_assoc, Rinv_l by lra. lra. }
  lra.
Qed.

Lemma collides_eq (bi bj : Body.t) (vi vj : R) :
  radScale (Body.rad bi) = Some vi →
  radScale (Body.rad bj) = Some vj →
  collides bi bj
  = Some (bool_decide
            (norm (Vec.sub (Body.pos bi) (Body.pos bj)) < vi + vj + 5 / 100)).
Proof.
  intros Hi Hj. unfold collides, collision, math_sqrt, Vec.pow_2.
  rewrite Hi, Hj. simpl.
  rewrite decide_True by apply dot_self_nonneg. reflexivity.
Qed.

Lemma norm_at_least (r : Vec.t) (s : R) :
  0 <= s → s * s <= Vec.mul r r → s <= norm r.
Proof.
  intros Hs Hle. unfold norm. rewrite <- (sqrt_square s Hs).
  apply sqrt_le_1_alt. exact Hle.
Qed.

Lemma norm_of_zero (r : Vec.t) : Vec.mul r r = 0 → norm r = 0.
Proof. apply norm_zero. Qed.

(** Bodies of radius 1 never pass the test: the threshold is below 0. *)
Lemma collides_unit_radius (bi bj : Body.t) :
  Body.rad bi = 1 → Body.rad bj = 1 → collides bi bj = Some false.
Proof.
  intros Hi Hj.
  rewrite (collides_eq bi bj _ _
             ltac:(rewrite Hi; apply (radScale_pow10 0))
             ltac:(rewrite Hj; apply (radScale_pow10 0))).
  f_equal. apply bool_decide_eq_false_2.
  pose proof (sqrt_pos (Vec.mul (Vec.sub (Body.pos bi) (Body.pos bj))
                          (Vec.sub (Body.pos bi) (Body.pos bj)))) as Hn.
  unfold norm. simpl. lra.
Qed.

Lemma norm_below (r : Vec.t) (t : R) :
  0 < t → Vec.mul r r < t * t → norm r < t.
Proof.
  intros Ht Hlt. unfold norm. rewrite <- (sqrt_square t) by lra.
  apply sqrt_lt_1_alt. split; [apply dot_self_nonneg | exact Hlt].
Qed.

Lemma collides_sample : collides sample_A sample_B = Some true.
Proof.
  rewrite (collides_eq sample_A sample_B _ _
             (radScale_pow10 3) (radScale_pow10 3)).
  f_equal. apply bool_decide_eq_true_2.
  apply norm_below; simpl; [lra | unfold Vec.mul; simpl; lra].
Qed.

(** ** CollisionResolver: the merged body *)

Lemma collides_radii (bi bj : Body.t) (hit : bool) :
  collides bi bj = Some hit → 0 < Body.rad bi ∧ 0 < Body.rad bj.
Proof.
  unfold collides, radScale, math_log. intros H.
  destruct (decide (0 < Body.rad bi)); [|discriminate].
  destruct (decide (0 < Body.rad bj)); [tauto|].
  destruct (decide (0 < 10)); [|lra].
  destruct (py_div (ln (Body.rad bi)) (ln 10)); discriminate.
Qed.

Lemma Rpower_cube (a : R) : 0 < a → Rpower a (1 / 3) ^ 3 = a.
Proof.
  intros Ha.
  rewrite <- (Rpower_pow 3) by (unfold Rpower; apply exp_pos).
  rewrite Rpower_mult.
  replace (1 / 3 * INR 3) with 1 by (simpl; field).
  apply Rpower_1. exact Ha.
Qed.

Lemma merge_eq (format_mass : R → string) (b1 b2 : Body.t) :
  Body.mass b1 + Body.mass b2 ≠ 0 →
  0 < Body.rad b1 ^ 3 + Body.rad b2 ^ 3 →
  merge format_mass b1 b2
  = Some (Body.new (Body.mass b1 + Body.mass b2)
            (Rpower (Body.rad b1 ^ 3 + Body.rad b2 ^ 3) (1 / 3))
            (Body.pos b1)
            (Vec.mk
               ((Body.mass b1 * Vec.x (Body.vel b1)
                 + Body.mass b2 * Vec.x (Body.vel b2))
                / (Body.mass b1 + Body.mass b2))
               ((Body.mass b1 * Vec.y (Body.vel b1)
                 + Body.mass b2 * Vec.y (Body.vel b2))
                / (Body.mass b1 + Body.mass b2)))
            (averageColour (Body.colour b1) (Body.colour b2))
            (merged_name format_mass b1 b2)).
Proof.
  intros Hm Hr. unfold merge, py_pow.
  rewrite (decide_True _ _ Hr). simpl.
  rewrite truediv_Some by exact Hm. reflexivity.
Qed.

(** C1: when the pair [(i, j)] with [i < j] passes the collision test and
    [m1 + m2 > 0], the pair step puts in slot [i] a body of mass [m1 + m2],
    radius [(r1^3 + r2^3)^(1/3)] (its cube is [r1^3 + r2^3]), the position
    of body [i], and velocity [(m1*v1 + m2*v2)/(m1 + m2)], for the
    velocities [v1], [v2] with which the two bodies entered the step and
    equally for the boosted ones that the merge reads; slot [j] gets the
    placeholder.  In particular, merging A (mass 10, velocity (1,0)) with
    B (mass 10, velocity (-1,0)) gives mass 20 and velocity (0,0). *)
Theorem merge_of_colliding_pair (force_power dt : R)
    (format_mass : R → string) (i j : nat) (st : Scan) (bi bj : Body.t) :
  (i < j)%nat →
  system st !! i = Some bi →
  system st !! j = Some bj →
  collides bi bj = Some true →
  0 < Body.mass bi + Body.mass bj →
  let m1 := Body.mass bi in
  let m2 := Body.mass bj in
  let r1 := Body.rad bi in
  let r2 := Body.rad bj in
  let avg v1 v2 :=
    Vec.mk ((m1 * Vec.x v1 + m2 * Vec.x v2) / (m1 + m2))
           ((m1 * Vec.y v1 + m2 * Vec.y v2) / (m1 + m2)) in
  (∃ st' m,
     pair_step force_power dt format_mass i j st = Some st'
     ∧ system st' !! i = Some m
     ∧ system st' !! j = Some placeholder
     ∧ delete_idx st' = delete_idx st ++ [j]
     ∧ Body.mass m = m1 + m2
     ∧ Body.rad m = Rpower (r1 ^ 3 + r2 ^ 3) (1 / 3)
     ∧ Body.rad m ^ 3 = r1 ^ 3 + r2 ^ 3
     ∧ Body.pos m = Body.pos bi
     ∧ Body.vel m = avg (Body.vel bi) (Body.vel bj)
     ∧ ∀ f,
         Body.vel m
         = avg (Vec.add (Body.vel bi) (impulses dt bi bj f).1)
               (Vec.add (Body.vel bj) (impulses dt bi bj f).2))
  ∧ (∀ A B : Body.t,
       Body.mass A = 10 → Body.vel A = Vec.mk 1 0 →
       Body.mass B = 10 → Body.vel B = Vec.mk (-1) 0 →
       0 < Body.rad A → 0 < Body.rad B →
       ∃ m, merge format_mass A B = Some m
            ∧ Body.mass m = 20 ∧ Body.vel m = Vec.mk 0 0
            ∧ Body.rad m ^ 3 = Body.rad A ^ 3 + Body.rad B ^ 3).
Proof.
  intros Hij Hbi Hbj Hhit Hmass. cbv zeta. split.
  - destruct (collides_radii bi bj true Hhit) as [Hri Hrj].
    assert (0 < Body.rad bi ^ 3 + Body.rad bj ^ 3) as Hr3.
    { apply Rplus_lt_0_compat; apply pow_lt; assumption. }
    assert (Body.mass bi + Body.mass bj ≠ 0) as Hne by lra.
    assert (i < length (system st))%nat as Hil
      by (eapply lookup_lt_Some; eauto).
    assert (j < length (system st))%nat as Hjl
      by (eapply lookup_lt_Some; eauto).
    rewrite (pair_step_eq _ _ _ i j st bi bj Hij Hbi Hbj). cbv zeta.
    rewrite Hhit. simpl.
    set (f := force force_power bi bj).
    rewrite merge_eq by assumption. simpl.
    pose proof (impulses_balance dt bi bj f) as Hbal.
    injection Hbal as Hx Hy.
    assert (∀ g, Vec.x (impulses dt bi bj g).1 * Body.mass bi
                 + Vec.x (impulses dt bi bj g).2 * Body.mass bj = 0
                 ∧ Vec.y (impulses dt bi bj g).1 * Body.mass bi
                   + Vec.y (impulses dt bi bj g).2 * Body.mass bj = 0)
      as Hany.
    { intros g. pose proof (impulses_balance dt bi bj g) as Hg.
      injection Hg as Hgx Hgy. lra. }
    eexists _, _. split; [reflexivity|]. simpl.
    split.
    { rewrite list_lookup_insert_ne by lia.
      apply list_lookup_insert_eq. rewrite !length_insert. exact Hil. }
    split.
    { apply list_lookup_insert_eq. rewrite !length_insert. exact Hjl. }
    split; [reflexivity|]. split; [reflexivity|]. split; [reflexivity|].
    split; [apply Rpower_cube; exact Hr3|]. split; [reflexivity|].
    split.
    + apply Vec_eq; simpl; field_simplify_eq; try exact Hne; lra.
    + intros g. destruct (Hany g) as [Hgx Hgy].
      apply Vec_eq; simpl; field_simplify_eq; try exact Hne; lra.
  - intros A B HmA HvA HmB HvB HrA HrB.
    assert (0 < Body.rad A ^ 3 + Body.rad B ^ 3) as Hr3.
    { apply Rplus_lt_0_compat; apply pow_lt; assumption. }
    rewrite merge_eq by (rewrite ?HmA, ?HmB; first [lra | exact Hr3]).
    eexists. split; [reflexivity|]. simpl.
    rewrite HmA, HmB, HvA, HvB. simpl.
    split; [lra|]. split; [apply Vec_eq; simpl; field|].
    apply Rpower_cube. exact Hr3.
Qed.

Lemma merge_of_colliding_pair_witness :
  ∃ st' m,
    pair_step (-2) 1 sample_format 0 1
      (mkScan [sample_A; sample_B] [] (CentreOut m0) []) = Some st'
    ∧ system st' !! 0%nat = Some m
    ∧ system st' !! 1%nat = Some placeholder
    ∧ Body.mass m = 10 + 10
    ∧ Body.rad m ^ 3 = (10 ^ 3) ^ 3 + (10 ^ 3) ^ 3
    ∧ Body.pos m = Vec.mk 0 0
    ∧ Body.vel m
      = Vec.mk ((10 * 1 + 10 * -1) / (10 + 10))
               ((10 * 0 + 10 * 0) / (10 + 10)).
Proof.
  destruct (merge_of_colliding_pair (-2) 1 sample_format 0 1
              (mkScan [sample_A; sample_B] [] (CentreOut m0) [])
              sample_A sample_B)
    as [(st' & m & Hstep & Hi & Hj & _ & Hm & _ & Hr & Hp & Hv & _) _].
  - lia.
  - reflexivity.
  - reflexivity.
  - exact collides_sample.
  - simpl. lra.
  - exists st', m. simpl in *. auto 10.
Defined.

(** ** Momentum *)

Lemma momentum_cons (b : Body.t) (l : list Body.t) :
  momentum (b :: l)
  = Vec.add (Vec.rmul (Body.mass b) (Body.vel b)) (momentum l).
Proof. reflexivity. Qed.

Lemma momentum_insert (l : list Body.t) (i : nat) (b b' : Body.t) :
  l !! i = Some b →
  momentum (<[i := b']> l)
  = Vec.add (momentum l)
      (Vec.sub (Vec.rmul (Body.mass b') (Body.vel b'))
               (Vec.rmul (Body.mass b) (Body.vel b))).
Proof.
  revert i. induction l as [|a l IH]; intros [|i] H; try discriminate.
  - injection H as ->. simpl. apply Vec_eq; simpl; ring.
  - simpl in H. change (<[S i:=b']> (a :: l)) with (a :: <[i:=b']> l).
    rewrite !momentum_cons, (IH i H). apply Vec_eq; simpl; ring.
Qed.

Lemma total_mass_insert (l : list Body.t) (i : nat) (b b' : Body.t) :
  l !! i = Some b → Body.mass b' = Body.mass b →
  total_mass (<[i := b']> l) = total_mass l.
Proof.
  revert i. induction l as [|a l IH]; intros [|i] H Hm; try discriminate.
  - injection H as ->. simpl. rewrite Hm. reflexivity.
  - simpl in H. change (<[S i:=b']> (a :: l)) with (a :: <[i:=b']> l).
    simpl. rewrite (IH i H Hm). reflexivity.
Qed.

Section Momentum.

Variables force_power dt : R.
Variable format_mass : R → string.

Lemma advance_fields (F : Flags) (vshift : Vec.t) (b : Body.t) :
  pause F = false →
  Body.mass (advance dt F vshift b) = Body.mass b
  ∧ Body.vel (advance dt F vshift b) = Vec.add (Body.vel b) (Vec.neg vshift).
Proof.
  intros Hp. unfold advance. rewrite Hp.
  destruct (tracing F), (trace_clear F); try case_decide;
    unfold Body.addTrace; try case_decide; split; reflexivity.
Qed.

Lemma momentum_advance (F : Flags) (vshift : Vec.t) (l : list Body.t) :
  pause F = false →
  momentum (map (advance dt F vshift) l)
  = Vec.sub (momentum l) (Vec.rmul (total_mass l) vshift).
Proof.
  intros Hp. induction l as [|b l IH]; simpl.
  - apply Vec_eq; simpl; ring.
  - change (foldr _ _ (map (advance dt F vshift) l))
      with (momentum (map (advance dt F vshift) l)).
    change (foldr (λ b acc, Vec.add (Vec.rmul (Body.mass b) (Body.vel b)) acc)
              (Vec.mk 0 0) l) with (momentum l).
    change (foldr (λ b acc, Body.mass b + acc) 0 l) with (total_mass l).
    destruct (advance_fields F vshift b Hp) as [-> ->].
    rewrite IH. apply Vec_eq; simpl; ring.
Qed.

Lemma collides_same (bi bj bi0 bj0 : Body.t) :
  same_but_vel bi bi0 → same_but_vel bj bj0 →
  collides bi bj = collides bi0 bj0.
Proof.
  intros (_ & Hri & Hpi & _) (_ & Hrj & Hpj & _).
  unfold collides. rewrite Hri, Hrj, Hpi, Hpj. reflexivity.
Qed.

Lemma pair_step_quiet (sys : list Body.t) (c : centre_ref) (i j : nat)
    (st : Scan) :
  no_hits sys →
  (i < j)%nat → (j < length sys)%nat →
  quiet_inv sys c st → length (system st) = length sys →
  ∃ st', pair_step force_power dt format_mass i j st = Some st'
         ∧ quiet_inv sys c st' ∧ length (system st') = length sys.
Proof.
  intros Hno Hij Hj (Hdel & Hc & Hsame & Hmom & Hmass) Hlen.
  destruct (lookup_lt_is_Some_2 (system st) i) as [bi Hbi]; [lia|].
  destruct (lookup_lt_is_Some_2 (system st) j) as [bj Hbj]; [lia|].
  destruct (Hsame i bi Hbi) as (bi0 & Hbi0 & Hsi).
  destruct (Hsame j bj Hbj) as (bj0 & Hbj0 & Hsj).
  rewrite (pair_step_eq _ _ _ i j st bi bj Hij Hbi Hbj). cbv zeta.
  rewrite (collides_same bi bj bi0 bj0 Hsi Hsj).
  rewrite (Hno i j bi0 bj0 Hij Hbi0 Hbj0). simpl.
  eexists. split; [reflexivity|].
  split; [|simpl; rewrite !length_insert; exact Hlen].
  unfold quiet_inv. simpl.
  set (f := force force_power bi bj).
  split; [exact Hdel|]. split; [exact Hc|]. split; [|split].
  - intros k b Hk.
    apply list_lookup_insert_Some in Hk as [(<- & <- & _) | (Hne & Hk)].
    { exists bj0. split; [exact Hbj0 | exact Hsj]. }
    apply list_lookup_insert_Some in Hk as [(<- & <- & _) | (Hne' & Hk)].
    { exists bi0. split; [exact Hbi0 | exact Hsi]. }
    apply (Hsame k b Hk).
  - rewrite (momentum_insert _ j bj)
      by (rewrite list_lookup_insert_ne by lia; exact Hbj).
    rewrite (momentum_insert _ i bi) by exact Hbi.
    rewrite Hmom.
    pose proof (impulses_balance dt bi bj f) as Hbal.
    injection Hbal as Hx Hy.
    apply Vec_eq; simpl; lra.
  - rewrite (total_mass_insert _ j bj)
      by (rewrite ?list_lookup_insert_ne by lia; done).
    rewrite (total_mass_insert _ i bi) by done.
    exact Hmass.
Qed.

Lemma pair_scan_quiet (sys : list Body.t) (c : centre_ref) :
  no_hits sys →
  ∃ st, pair_scan force_power dt format_mass (mkScan sys [] c []) = Some st
        ∧ quiet_inv sys c st ∧ length (system st) = length sys.
Proof.
  intros Hno. unfold pair_scan. simpl.
  apply (for_each_total
           (λ t, quiet_inv sys c t ∧ length (system t) = length sys)).
  - intros i t _ [Ht Hlen]. unfold inner_loop.
    apply (for_each_total
             (λ t, quiet_inv sys c t ∧ length (system t) = length sys));
      [|split; assumption].
    intros j u Hj%elem_of_seq [Hu Hlu].
    apply pair_step_quiet; try assumption; lia.
  - split; [|reflexivity]. unfold quiet_inv. simpl.
    split; [reflexivity|]. split; [reflexivity|].
    split; [|split; reflexivity].
    intros k b Hk. exists b. split; [exact Hk|]. repeat split.
Qed.

End Momentum.

Lemma delete_order_nil : delete_order [] = [].
Proof. reflexivity. Qed.

(** C2 as claimed fails when the reference body moves: a registry of one
    body, which is also the reference, has momentum (1,0) before the frame
    and (0,0) after it, with no pair to collide. *)
Lemma momentum_changed_by_frame_shift :
  ∃ w', frame (-2) 1 sample_format running (mkWorld [lone] (CentreIn 0))
        = Some w'
        ∧ momentum [lone] = Vec.mk (1 * 1 + 0) (1 * 0 + 0)
        ∧ momentum (w_system w') = Vec.mk (1 * (1 + - 1) + 0) (1 * (0 + - 0) + 0)
        ∧ momentum (w_system w') ≠ momentum [lone].
Proof.
  eexists. split; [reflexivity|]. simpl.
  split; [reflexivity|]. split; [reflexivity|].
  unfold momentum. simpl. intros [= H _]. lra.
Qed.

(** A running frame on a registry without a hit: the scan goes through
    and deletes nothing, and the frame then shifts and moves every body. *)
Lemma quiet_frame (force_power dt : R) (format_mass : R → string)
    (F : Flags) (sys : list Body.t) (c : centre_ref) :
  pause F = false →
  no_hits sys →
  is_Some (centre_body sys c) →
  ∃ st ref,
    pair_scan force_power dt format_mass (mkScan sys [] c []) = Some st
    ∧ quiet_inv sys c st
    ∧ centre_body (system st) c = Some ref
    ∧ (∀ b, c = CentreOut b → ref = b)
    ∧ frame force_power dt format_mass F (mkWorld sys c)
      = Some (mkWorld (map (advance dt F (Body.vel ref)) (system st)) c).
Proof.
  intros Hp Hno [ref0 Href0].
  destruct (pair_scan_quiet force_power dt format_mass sys c Hno)
    as (st & Hscan & Hq & Hlen).
  pose proof Hq as (Hdel & Hc & _).
  assert (∃ ref, centre_body (system st) c = Some ref
                 ∧ ∀ b, c = CentreOut b → ref = b) as (ref & Href & Hout).
  { destruct c as [k | b]; simpl in *.
    - destruct (lookup_lt_is_Some_2 (system st) k) as [ref Href].
      { rewrite Hlen. eapply lookup_lt_Some. exact Href0. }
      exists ref. split; [exact Href | intros; discriminate].
    - exists b. split; [reflexivity | intros ? [= <-]; reflexivity]. }
  exists st, ref. split; [exact Hscan|]. split; [exact Hq|].
  split; [exact Href|]. split; [exact Hout|].
  unfold frame. rewrite Hp. simpl. rewrite Hscan. simpl.
  rewrite Hdel, delete_order_nil, Hc. simpl.
  assert (reindex (system st) [] c = c) as ->.
  { destruct c as [k | b]; simpl; [|reflexivity].
    rewrite Nat.sub_0_r. reflexivity. }
  rewrite Href. reflexivity.
Qed.

(** C2, amended: in a frame in which no pair collides, the pairwise
    impulses leave the total momentum of the registry unchanged, and the
    frame shift then takes the reference velocity off every body: the
    momentum after the frame is the momentum before it minus the total mass
    times the reference velocity.  It is unchanged when the reference
    velocity is zero, as it is for an untouched [m0]. *)
Theorem momentum_after_quiet_frame (force_power dt : R)
    (format_mass : R → string) (F : Flags) (sys : list Body.t)
    (c : centre_ref) :
  pause F = false →
  no_hits sys →
  is_Some (centre_body sys c) →
  ∃ st ref w',
    pair_scan force_power dt format_mass (mkScan sys [] c []) = Some st
    ∧ delete_idx st = []
    ∧ momentum (system st) = momentum sys
    ∧ centre_body (system st) c = Some ref
    ∧ (∀ b, c = CentreOut b → ref = b)
    ∧ frame force_power dt format_mass F (mkWorld sys c) = Some w'
    ∧ momentum (w_system w')
      = Vec.sub (momentum sys) (Vec.rmul (total_mass sys) (Body.vel ref))
    ∧ (Body.vel ref = Vec.mk 0 0 → momentum (w_system w') = momentum sys).
Proof.
  intros Hp Hno Hcen.
  destruct (quiet_frame force_power dt format_mass F sys c Hp Hno Hcen)
    as (st & ref & Hscan & (Hdel & Hc & Hsame & Hmom & Hmass)
        & Href & Hout & Hframe).
  assert (momentum (map (advance dt F (Body.vel ref)) (system st))
          = Vec.sub (momentum sys) (Vec.rmul (total_mass sys) (Body.vel ref)))
    as Hafter.
  { rewrite (momentum_advance dt F _ _ Hp), Hmom, Hmass. reflexivity. }
  exists st, ref, (mkWorld (map (advance dt F (Body.vel ref)) (system st)) c).
  split; [exact Hscan|]. split; [exact Hdel|]. split; [exact Hmom|].
  split; [exact Href|]. split; [exact Hout|]. split; [exact Hframe|].
  simpl. split; [exact Hafter|].
  intros Hzero. rewrite Hafter, Hzero. apply Vec_eq; simpl; ring.
Qed.

Lemma no_hits_far : no_hits [far_a; far_b].
Proof.
  intros i j bi bj _ Hi Hj. apply collides_unit_radius.
  - destruct i as [|[|i]]; simpl in Hi; try discriminate;
      injection Hi as <-; reflexivity.
  - destruct j as [|[|j]]; simpl in Hj; try discriminate;
      injection Hj as <-; reflexivity.
Qed.

Lemma momentum_after_quiet_frame_witness :
  let sys := [far_a; far_b] in
  let c := CentreOut m0 in
  ∃ st ref w',
    pair_scan (-2) 1 sample_format (mkScan sys [] c []) = Some st
    ∧ delete_idx st = []
    ∧ momentum (system st) = momentum sys
    ∧ centre_body (system st) c = Some ref
    ∧ (∀ b, c = CentreOut b → ref = b)
    ∧ frame (-2) 1 sample_format running (mkWorld sys c) = Some w'
    ∧ momentum (w_system w')
      = Vec.sub (momentum sys) (Vec.rmul (total_mass sys) (Body.vel ref))
    ∧ (Body.vel ref = Vec.mk 0 0 → momentum (w_system w') = momentum sys).
Proof.
  apply (momentum_after_quiet_frame (-2) 1 sample_format running
           [far_a; far_b] (CentreOut m0)).
  - reflexivity.
  - exact no_hits_far.
  - exists m0. reflexivity.
Defined.

(** ** Order of force evaluation and movement *)


Lemma merge_fields (format_mass : R → string) (b1 b2 m : Body.t) :
  merge format_mass b1 b2 = Some m →
  Body.mass m = Body.mass b1 + Body.mass b2
  ∧ Body.pos m = Body.pos b1
  ∧ Body.colour m = averageColour (Body.colour b1) (Body.colour b2)
  ∧ Body.trace m = [].
Proof.
  unfold merge. intros H.
  destruct (py_pow _ _); simpl in H; [|discriminate].
  destruct (Vec.truediv _ _); simpl in H; [|discriminate].
  injection H as <-. auto.
Qed.



Section ScanOrder.

Variables force_power dt : R.
Variable format_mass : R → string.




End ScanOrder.



(** ** Two sample scans with a merge *)

Section Shapes.

Variables force_power dt : R.
Variable format_mass : R → string.

(** What one pair step does to the log, the delete list and the shapes,
    from the outcome of the collision test. *)
Lemma pair_step_shape (i j : nat) (st : Scan) (bi bj : Body.t) (hit : bool) :
  (i < j)%nat →
  system st !! i = Some bi →
  system st !! j = Some bj →
  collides bi bj = Some hit →
  (hit = true → Body.mass bi + Body.mass bj ≠ 0) →
  ∃ st',
    pair_step force_power dt format_mass i j st = Some st'
    ∧ log st'
      = log st ++ EvForce i j (Body.pos bi) (Body.pos bj)
                  :: (if hit then [EvMerge i j] else [])
    ∧ delete_idx st' = delete_idx st ++ (if hit then [j] else [])
    ∧ (∀ b, centre st = CentreOut b → centre st' = CentreOut b)
    ∧ shape <$> system st'
      = if hit
        then <[j := shape placeholder]>
               (<[i := (Body.mass bi + Body.mass bj,
                        Rpower (Body.rad bi ^ 3 + Body.rad bj ^ 3) (1 / 3),
                        Body.pos bi)]> (shape <$> system st))
        else shape <$> system st.
Proof.
  intros Hij Hbi Hbj Hhit Hm.
  destruct (collides_radii bi bj hit Hhit) as [Hri Hrj].
  rewrite (pair_step_eq _ _ _ i j st bi bj Hij Hbi Hbj). cbv zeta.
  rewrite Hhit. simpl.
  set (f := force force_power bi bj).
  assert (shape <$> <[j:=Body.boost (impulses dt bi bj f).2 bj]>
                      (<[i:=Body.boost (impulses dt bi bj f).1 bi]> (system st))
          = shape <$> system st) as Hsame.
  { rewrite !list_fmap_insert.
    rewrite (list_insert_id _ i) by (rewrite list_lookup_fmap, Hbi; reflexivity).
    apply list_insert_id. rewrite list_lookup_fmap, Hbj. reflexivity. }
  destruct hit.
  - rewrite merge_eq;
      [|apply Hm; reflexivity
       |apply Rplus_lt_0_compat; apply pow_lt; assumption].
    simpl. eexists. split; [reflexivity|]. simpl.
    split; [rewrite <- app_assoc; reflexivity|].
    split; [reflexivity|]. split.
    + intros b ->. reflexivity.
    + do 2 rewrite (list_fmap_insert shape). rewrite Hsame. reflexivity.
  - eexists. split; [reflexivity|]. simpl.
    split; [reflexivity|]. split; [rewrite app_nil_r; reflexivity|].
    split; [auto | exact Hsame].
Qed.

End Shapes.

Lemma Rpower_cube_root (a : R) : 0 < a → Rpower (a ^ 3) (1 / 3) = a.
Proof.
  intros Ha. rewrite <- (Rpower_pow 3) by exact Ha.
  rewrite Rpower_mult.
  replace (INR 3 * (1 / 3)) with 1 by (simpl; field).
  apply Rpower_1. exact Ha.
Qed.

(** The display radius of two merged bodies of radius 10^6 is below 0.1. *)
Lemma radScale_merged_twins :
  ∃ v, radScale (Rpower ((10 ^ 6) ^ 3 + (10 ^ 6) ^ 3) (1 / 3)) = Some v
       ∧ v < 1 / 10.
Proof.
  destruct (radScale_below (Rpower ((10 ^ 6) ^ 3 + (10 ^ 6) ^ 3) (1 / 3)) 7)
    as (v & Hv & Hlt).
  - unfold Rpower. apply exp_pos.
  - rewrite <- (Rpower_cube_root (10 ^ 7)) by lra.
    apply Rlt_Rpower_l; lra.
  - exists v. split; [exact Hv|]. simpl in Hlt. lra.
Qed.

Lemma three_slots {A B : Type} (f : A → B) (l : list A) (x y z : B) :
  f <$> l = [x; y; z] →
  ∃ a b c, l = [a; b; c] ∧ f a = x ∧ f b = y ∧ f c = z.
Proof.
  destruct l as [|a [|b [|c [|d l]]]]; simpl; intros H; try discriminate.
  injection H as <- <- <-. eauto 10.
Qed.

Lemma collides_shape (bi bj bi' bj' : Body.t) :
  shape bi = shape bi' → shape bj = shape bj' →
  collides bi bj = collides bi' bj'.
Proof.
  unfold shape, collides. intros [= _ -> ->] [= _ -> ->]. reflexivity.
Qed.

Lemma collides_twins : collides twin_1 twin_2 = Some true.
Proof.
  rewrite (collides_eq twin_1 twin_2 _ _
             (radScale_pow10 6) (radScale_pow10 6)).
  f_equal. apply bool_decide_eq_true_2.
  rewrite norm_of_zero by (unfold Vec.mul; simpl; ring). simpl. lra.
Qed.

Section SampleScans.

Variables force_power dt : R.
Variable format_mass : R → string.

Lemma pair_scan_three (st0 st1 st2 st3 : Scan) :
  length (system st0) = 3%nat →
  length (system st2) = 3%nat →
  length (system st3) = 3%nat →
  pair_step force_power dt format_mass 0 1 st0 = Some st1 →
  pair_step force_power dt format_mass 0 2 st1 = Some st2 →
  pair_step force_power dt format_mass 1 2 st2 = Some st3 →
  pair_scan force_power dt format_mass st0 = Some st3.
Proof.
  unfold pair_scan, inner_loop.
  generalize (pair_step force_power dt format_mass). intros ps.
  intros L0 L2 L3 H01 H02 H12.
  rewrite L0. simpl. rewrite L0. simpl.
  rewrite H01. simpl. rewrite H02. simpl.
  rewrite L2. simpl. rewrite H12. simpl.
  rewrite L3. reflexivity.
Qed.

(** Two bodies of radius 10^6 on one spot, then a third of that radius at
    least 5 away: the twins merge, the merged body does not reach the
    third, and the placeholder in slot 1 is tested against the third. *)
Lemma twins_scan (third : Body.t) (hit : bool) :
  Body.rad third = 10 ^ 6 →
  Body.mass third = 10 →
  5 * 5 <= Vec.mul (Vec.sub (Vec.mk 5 0) (Body.pos third))
                   (Vec.sub (Vec.mk 5 0) (Body.pos third)) →
  collides placeholder third = Some hit →
  ∃ st,
    pair_scan force_power dt format_mass
      (mkScan [twin_1; twin_2; third] [] (CentreOut m0) []) = Some st
    ∧ log st
      = [EvForce 0 1 (Vec.mk 5 0) (Vec.mk 5 0); EvMerge 0 1;
         EvForce 0 2 (Vec.mk 5 0) (Body.pos third);
         EvForce 1 2 (Vec.mk 0 0) (Body.pos third)]
        ++ (if hit then [EvMerge 1 2] else [])
    ∧ delete_idx st = 1%nat :: (if hit then [2%nat] else [])
    ∧ centre st = CentreOut m0
    ∧ ∃ a b c, system st = [a; b; c] ∧ Body.mass a = 10 + 10.
Proof.
  intros Hrad Hmass Hfar Hhit.
  set (st0 := mkScan [twin_1; twin_2; third] [] (CentreOut m0) []).
  (* pair (0, 1) *)
  destruct (pair_step_shape force_power dt format_mass 0 1 st0
              twin_1 twin_2 true)
    as (st1 & H01 & Hlog1 & Hdel1 & Hcen1 & Hsh1);
    [lia | reflexivity | reflexivity | exact collides_twins
     | intros _; simpl; lra |].
  simpl in Hlog1, Hdel1, Hsh1. specialize (Hcen1 m0 eq_refl).
  apply three_slots in Hsh1 as (a1 & b1 & c1 & Hsys1 & Ha1 & Hb1 & Hc1).
  (* pair (0, 2) *)
  assert (collides a1 c1 = Some false) as Hmiss.
  { destruct radScale_merged_twins as (v & Hv & Hlt).
    injection Ha1 as Hma Hra Hpa. injection Hc1 as Hmc Hrc Hpc.
    rewrite (collides_eq a1 c1 v _
               ltac:(rewrite Hra; exact Hv)
               ltac:(rewrite Hrc, Hrad; exact (radScale_pow10 6))).
    f_equal. apply bool_decide_eq_false_2.
    rewrite Hpa, Hpc.
    pose proof (norm_at_least _ 5 ltac:(lra) Hfar) as Hn.
    simpl. simpl in Hn. lra. }
  destruct (pair_step_shape force_power dt format_mass 0 2 st1 a1 c1 false)
    as (st2 & H02 & Hlog2 & Hdel2 & Hcen2 & Hsh2);
    [lia | rewrite Hsys1; reflexivity | rewrite Hsys1; reflexivity
     | exact Hmiss | discriminate |].
  specialize (Hcen2 m0 Hcen1).
  rewrite Hsys1 in Hsh2. simpl in Hsh2.
  apply three_slots in Hsh2 as (a2 & b2 & c2 & Hsys2 & Ha2 & Hb2 & Hc2).
  rewrite Ha1 in Ha2. rewrite Hb1 in Hb2. rewrite Hc1 in Hc2.
  (* pair (1, 2) *)
  destruct (pair_step_shape force_power dt format_mass 1 2 st2 b2 c2 hit)
    as (st3 & H12 & Hlog3 & Hdel3 & Hcen3 & Hsh3);
    [lia | rewrite Hsys2; reflexivity | rewrite Hsys2; reflexivity
     | rewrite (collides_shape b2 c2 placeholder third Hb2 Hc2); exact Hhit
     | |].
  { intros _. injection Hb2 as -> _ _. injection Hc2 as -> _ _.
    rewrite Hmass. simpl. lra. }
  specialize (Hcen3 m0 Hcen2).
  assert (∃ a b c, system st3 = [a; b; c] ∧ Body.mass a = 10 + 10)
    as (a3 & b3 & c3 & Hsys3 & Hma3).
  { rewrite Hsys2 in Hsh3. simpl in Hsh3. rewrite Ha2 in Hsh3.
    destruct hit; simpl in Hsh3;
      apply three_slots in Hsh3 as (a3 & b3 & c3 & Hsys3 & Ha3 & _);
      exists a3, b3, c3; (split; [exact Hsys3|]);
      injection Ha3 as -> _ _; reflexivity. }
  exists st3. split.
  { apply (pair_scan_three st0 st1 st2 st3); try assumption.
    - reflexivity.
    - rewrite Hsys2. reflexivity.
    - rewrite Hsys3. reflexivity. }
  split.
  { rewrite Hlog3, Hlog2, Hlog1.
    injection Ha1 as _ _ ->. injection Hc1 as _ _ ->.
    injection Hb2 as _ _ ->. injection Hc2 as _ _ ->.
    destruct hit; reflexivity. }
  split; [rewrite Hdel3, Hdel2, Hdel1; destruct hit; reflexivity|].
  split; [exact Hcen3|].
  exists a3, b3, c3. split; assumption.
Qed.

End SampleScans.

Lemma collides_placeholder_at_origin :
  collides placeholder at_origin = Some true.
Proof.
  rewrite (collides_eq placeholder at_origin _ _
             (radScale_pow10 0) (radScale_pow10 6)).
  f_equal. apply bool_decide_eq_true_2.
  rewrite norm_of_zero by (unfold Vec.mul; simpl; ring). simpl. lra.
Qed.

Lemma collides_placeholder_far_off :
  collides placeholder far_off = Some false.
Proof.
  rewrite (collides_eq placeholder far_off _ _
             (radScale_pow10 0) (radScale_pow10 6)).
  f_equal. apply bool_decide_eq_false_2.
  pose proof (norm_at_least
                (Vec.sub (Body.pos placeholder) (Body.pos far_off)) 5
                ltac:(lra) ltac:(unfold Vec.mul; simpl; lra)) as Hn.
  simpl. simpl in Hn. lra.
Qed.

Lemma delete_order_1_2 : delete_order [1; 2]%nat = [2; 1]%nat.
Proof. reflexivity. Qed.

(** C3: on two bodies on one spot at (5,0) and a third at the origin, all
    of radius 10^6, the scan merges pair (0,1), leaves the placeholder in
    slot 1, and then merges that marked slot with the third body as pair
    (1,2): slot 1 takes part in a second merge.  Slots 1 and 2 are both
    deleted, so the frame ends with one body of mass 20 where the masses
    summed to 30. *)
Theorem placeholder_merges_again :
  let sys := [twin_1; twin_2; at_origin] in
  ∃ st w',
    pair_scan (-2) 1 sample_format (mkScan sys [] (CentreOut m0) []) = Some st
    ∧ log st
      = [EvForce 0 1 (Vec.mk 5 0) (Vec.mk 5 0); EvMerge 0 1;
         EvForce 0 2 (Vec.mk 5 0) (Vec.mk 0 0);
         EvForce 1 2 (Vec.mk 0 0) (Vec.mk 0 0); EvMerge 1 2]
    ∧ delete_idx st = [1; 2]%nat
    ∧ ¬ no_reuse (log st)
    ∧ frame (-2) 1 sample_format running (mkWorld sys (CentreOut m0))
      = Some w'
    ∧ Body.mass <$> w_system w' = [10 + 10]
    ∧ total_mass sys = 10 + (10 + (10 + 0)).
Proof.
  simpl.
  destruct (twins_scan (-2) 1 sample_format at_origin true)
    as (st & Hscan & Hlog & Hdel & Hcen & a & b & c & Hsys & Hma);
    [reflexivity | reflexivity | unfold Vec.mul; simpl; lra
     | exact collides_placeholder_at_origin |].
  simpl in Hlog, Hdel.
  eexists st, _. split; [exact Hscan|]. split; [exact Hlog|].
  split; [exact Hdel|]. split.
  { intros Hno. rewrite Hlog in Hno.
    destruct (Hno [EvForce 0 1 (Vec.mk 5 0) (Vec.mk 5 0); EvMerge 0 1;
                   EvForce 0 2 (Vec.mk 5 0) (Vec.mk 0 0);
                   EvForce 1 2 (Vec.mk 0 0) (Vec.mk 0 0)] 1%nat 2%nat []
                eq_refl) as [Hin _].
    apply Hin. simpl. left. }
  split.
  { unfold frame. simpl. rewrite Hscan. simpl.
    rewrite Hdel, delete_order_1_2, Hcen, Hsys. simpl. reflexivity. }
  split; [simpl; rewrite Hma; reflexivity | reflexivity].
Qed.


(** * Further properties of the engine *)

(** ** ForceModel: symmetry and the potential *)

Lemma norm_sub_swap (p q : Vec.t) :
  norm (Vec.sub p q) = norm (Vec.sub q p).
Proof. unfold norm, Vec.mul. simpl. f_equal. ring. Qed.

Lemma force_swap (force_power : R) (a b : Body.t) :
  force force_power b a = Vec.neg (force force_power a b).
Proof.
  unfold force.
  rewrite (norm_sub_swap (Body.pos a) (Body.pos b)).
  set (n := norm (Vec.sub (Body.pos b) (Body.pos a))).
  destruct (decide (n = 0)) as [Hz | Hnz].
  - apply Vec_eq; simpl; ring.
  - apply Vec_eq; simpl; field; exact Hnz.
Qed.

(** X1: Newton's third law for every exponent: when [gravity a b] and
    [gravity b a] both return, the force on [b] by [a] is, component by
    component, the opposite of the force on [a] by [b]. *)
Theorem gravity_antisymmetric (force_power : R) (a b : Body.t)
    (v w : Vec.t) :
  gravity force_power a b = Some v →
  gravity force_power b a = Some w →
  Vec.x w = - Vec.x v ∧ Vec.y w = - Vec.y v.
Proof.
  rewrite !gravity_force, (force_swap force_power a b).
  intros [= <-] [= <-]. split; reflexivity.
Qed.

Lemma gravity_antisymmetric_witness :
  ∃ v w, gravity (-2) far_a far_b = Some v
         ∧ gravity (-2) far_b far_a = Some w
         ∧ Vec.x w = - Vec.x v ∧ Vec.y w = - Vec.y v.
Proof.
  exists (force (-2) far_a far_b), (force (-2) far_b far_a).
  split; [apply gravity_force|]. split; [apply gravity_force|].
  apply (gravity_antisymmetric (-2) far_a far_b); apply gravity_force.
Defined.

(** X2: whenever [potential pos obj] returns, with [r = pos obj - pos]
    and [r.r = rx*rx + ry*ry], it returns 0 when [r.r] is 0, as at the
    body's own position, and [G * mass * |r|^(p+1)] when [r.r] is not 0,
    [|r| = sqrt (r.r)] being the distance to the body. *)
Theorem potential_formula (force_power : R) (pos : Vec.t) (obj : Body.t)
    (u : R) :
  potential force_power pos obj = Some u →
  let rx := Vec.x (Body.pos obj) - Vec.x pos in
  let ry := Vec.y (Body.pos obj) - Vec.y pos in
  let rr := rx * rx + ry * ry in
  (rr = 0 → u = 0)
  ∧ (rr ≠ 0 → u = G * Body.mass obj * Rpower (sqrt rr) (force_power + 1)).
Proof.
  cbv zeta. unfold potential.
  pose proof (dot_self_nonneg (Vec.sub (Body.pos obj) pos)) as Hnn.
  unfold Vec.mul in *. simpl in *.
  set (rr := (Vec.x (Body.pos obj) - Vec.x pos)
             * (Vec.x (Body.pos obj) - Vec.x pos)
             + (Vec.y (Body.pos obj) - Vec.y pos)
               * (Vec.y (Body.pos obj) - Vec.y pos)) in *.
  destruct (decide (rr ≠ 0)) as [Hne | He].
  - assert (0 < rr) as Hpos by lra.
    unfold py_pow. rewrite (decide_True _ _ Hpos). simpl.
    rewrite (Rpower_half _ _ Hpos). intros [= <-].
    split; [intros Hz; contradiction | reflexivity].
  - intros [= <-]. split; [reflexivity | intros Hnz; contradiction].
Qed.

Lemma potential_formula_witness :
  ∃ u, potential (-2) (Vec.mk 0 0) far_b = Some u
       ∧ u = G * 20
             * Rpower (sqrt ((10 - 0) * (10 - 0) + (0 - 0) * (0 - 0)))
                 (-2 + 1).
Proof.
  assert (∃ u, potential (-2) (Vec.mk 0 0) far_b = Some u) as [u Hu].
  { unfold potential, py_pow, Vec.mul. simpl.
    rewrite decide_True by lra. rewrite decide_True by lra.
    simpl. eauto. }
  exists u. split; [exact Hu|].
  apply (potential_formula (-2) (Vec.mk 0 0) far_b u Hu). simpl. lra.
Defined.

(** ** The collision test *)

(** X3: the collision test never raises and does not depend on the order
    in which the two bodies are given. *)
Theorem collision_symmetric (pos1 pos2 : Vec.t) (rad1 rad2 : R) :
  is_Some (collision pos1 rad1 pos2 rad2)
  ∧ collision pos2 rad2 pos1 rad1 = collision pos1 rad1 pos2 rad2.
Proof.
  unfold collision, math_sqrt, Vec.pow_2.
  rewrite !decide_True by apply dot_self_nonneg. simpl.
  split; [eauto|].
  replace (Vec.mul (Vec.sub pos2 pos1) (Vec.sub pos2 pos1))
    with (Vec.mul (Vec.sub pos1 pos2) (Vec.sub pos1 pos2))
    by (unfold Vec.mul; simpl; ring).
  replace (rad2 + rad1) with (rad1 + rad2) by ring. reflexivity.
Qed.

Lemma radScale_None (rad : R) : rad <= 0 → radScale rad = None.
Proof.
  intros Hr. unfold radScale, math_log.
  rewrite decide_False by lra. reflexivity.
Qed.

(** X4: [radScale] raises exactly on a radius of 0 or less; on positive
    radii it never decreases when the radius grows, and a radius below 1000
    has a negative display radius. *)
Theorem radScale_monotone (rad1 rad2 : R) :
  (radScale rad1 = None ↔ rad1 <= 0)
  ∧ (0 < rad1 → rad1 <= rad2 →
     ∃ v1 v2, radScale rad1 = Some v1 ∧ radScale rad2 = Some v2
              ∧ v1 <= v2
              ∧ (rad1 < 1000 → v1 < 0)).
Proof.
  split.
  - split.
    + intros HN. destruct (decide (0 < rad1)) as [Hp | Hn]; [|lra].
      rewrite radScale_eq in HN by exact Hp. discriminate.
    + apply radScale_None.
  - intros H1 H12. assert (0 < rad2) as H2 by lra.
    rewrite !radScale_eq by assumption.
    eexists _, _. split; [reflexivity|]. split; [reflexivity|].
    pose proof ln_10_pos as H10.
    assert (∀ a b, a <= b → a / ln 10 <= b / ln 10) as Hdiv.
    { intros a b H. apply Rmult_le_compat_r;
        [left; apply Rinv_0_lt_compat; exact H10 | exact H]. }
    assert (ln rad1 <= ln rad2) as Hln.
    { destruct H12 as [Hlt | ->]; [left; apply ln_increasing; assumption|].
      right. reflexivity. }
    split.
    + pose proof (Hdiv _ _ Hln) as Hle.
      set (x1 := ln rad1 / ln 10) in *. set (x2 := ln rad2 / ln 10) in *.
      simpl. lra.
    + intros Hlt.
      assert (ln rad1 < ln 1000) as Hl3
        by (apply ln_increasing; [exact H1 | exact Hlt]).
      assert (ln 1000 = 3 * ln 10) as H3.
      { replace 1000 with (10 ^ 3) by lra. rewrite ln_pow by lra.
        simpl. ring. }
      assert (ln rad1 / ln 10 < 3) as Hx.
      { apply (Rmult_lt_reg_r (ln 10)); [exact H10|].
        replace (ln rad1 / ln 10 * ln 10) with (ln rad1) by (field; lra).
        lra. }
      set (x1 := ln rad1 / ln 10) in *. simpl. lra.
Qed.

Lemma radScale_monotone_witness :
  ∃ v1 v2, radScale 10 = Some v1 ∧ radScale 2000 = Some v2
           ∧ v1 <= v2
           ∧ (10 < 1000 → v1 < 0).
Proof.
  apply (radScale_monotone 10 2000); lra.
Defined.

Lemma collides_radii_product (bi bj : Body.t) :
  0 < Body.rad bi → 0 < Body.rad bj →
  (Body.rad bi * Body.rad bj <= 10 ^ 4 → collides bi bj = Some false)
  ∧ (10 ^ 4 < Body.rad bi * Body.rad bj → Body.pos bi = Body.pos bj →
     collides bi bj = Some true).
Proof.
  intros Hi Hj.
  rewrite (collides_eq bi bj _ _ (radScale_eq _ Hi) (radScale_eq _ Hj)).
  pose proof ln_10_pos as H10.
  assert (ln (10 ^ 4) = 4 * ln 10) as H4.
  { rewrite ln_pow by lra. simpl. ring. }
  assert (0 < Body.rad bi * Body.rad bj) as Hprod
    by (apply Rmult_lt_0_compat; assumption).
  set (s := ln (Body.rad bi) / ln 10 + ln (Body.rad bj) / ln 10).
  assert (s = ln (Body.rad bi * Body.rad bj) / ln 10) as Hs.
  { unfold s. rewrite ln_mult by assumption. field. lra. }
  assert (∀ a, a / ln 10 <= 4 ↔ a <= 4 * ln 10) as Hdiv.
  { intros a. split; intros H.
    - apply (Rmult_le_reg_r (/ ln 10));
        [apply Rinv_0_lt_compat; exact H10|].
      replace (4 * ln 10 * / ln 10) with 4 by (field; lra). exact H.
    - replace 4 with (4 * ln 10 * / ln 10) by (field; lra).
      apply Rmult_le_compat_r;
        [left; apply Rinv_0_lt_compat; exact H10 | exact H]. }
  split.
  - intros Hle. f_equal. apply bool_decide_eq_false_2.
    assert (s <= 4) as Hs4.
    { rewrite Hs. apply Hdiv. rewrite <- H4.
      destruct Hle as [Hlt | Heq].
      - left. apply ln_increasing; assumption.
      - right. rewrite Heq. reflexivity. }
    pose proof (sqrt_pos (Vec.mul (Vec.sub (Body.pos bi) (Body.pos bj))
                            (Vec.sub (Body.pos bi) (Body.pos bj)))) as Hn.
    unfold norm. fold s.
    set (n := sqrt _) in *.
    replace (25 / 10 * (ln (Body.rad bi) / ln 10 / 10 ^ 2 - 30 / 1000)
             + 25 / 10 * (ln (Body.rad bj) / ln 10 / 10 ^ 2 - 30 / 1000))
      with (25 / 10 * (s / 100 - 60 / 1000)) by (unfold s; field; lra).
    lra.
  - intros Hgt Hpos. f_equal. apply bool_decide_eq_true_2.
    assert (4 < s) as Hs4.
    { rewrite Hs. apply Rnot_le_lt. intros Hc. apply Hdiv in Hc.
      rewrite <- H4 in Hc.
      pose proof (ln_increasing (10 ^ 4) _ ltac:(lra) Hgt). lra. }
    rewrite Hpos, norm_of_zero by (unfold Vec.mul; simpl; ring).
    replace (25 / 10 * (ln (Body.rad bi) / ln 10 / 10 ^ 2 - 30 / 1000)
             + 25 / 10 * (ln (Body.rad bj) / ln 10 / 10 ^ 2 - 30 / 1000))
      with (25 / 10 * (s / 100 - 60 / 1000)) by (unfold s; field; lra).
    lra.
Qed.

(** X5: for two bodies of positive radius the threshold of the scan's
    collision test, the two display radii plus 0.05, is
    [0.025 * (log10 rad_i + log10 rad_j) - 0.1], which changes sign where
    the radii multiply to 10^4.  A decade below, with a product of at most
    10^3, the bodies never pass the test, wherever they are; a decade
    above, with a product of at least 10^5, two bodies on one spot always
    pass it. *)
Theorem collides_by_radii (bi bj : Body.t) :
  0 < Body.rad bi → 0 < Body.rad bj →
  (∃ vi vj, radScale (Body.rad bi) = Some vi
            ∧ radScale (Body.rad bj) = Some vj
            ∧ vi + vj + 5 / 100
              = 25 / 1000
                * (ln (Body.rad bi) / ln 10 + ln (Body.rad bj) / ln 10)
                - 1 / 10)
  ∧ (Body.rad bi * Body.rad bj <= 10 ^ 3 → collides bi bj = Some false)
  ∧ (10 ^ 5 <= Body.rad bi * Body.rad bj → Body.pos bi = Body.pos bj →
     collides bi bj = Some true).
Proof.
  intros Hi Hj.
  destruct (collides_radii_product bi bj Hi Hj) as [Hlow Hhigh].
  split; [|split].
  - rewrite !radScale_eq by assumption.
    eexists _, _. split; [reflexivity|]. split; [reflexivity|].
    pose proof ln_10_pos as H10. simpl. field. lra.
  - intros Hle. apply Hlow. lra.
  - intros Hge. apply Hhigh. lra.
Qed.

Lemma collides_by_radii_witness :
  collides placeholder far_a = Some false
  ∧ collides twin_1 twin_2 = Some true.
Proof.
  split.
  - apply (collides_by_radii placeholder far_a); simpl; lra.
  - apply (collides_by_radii twin_1 twin_2); simpl; try lra. reflexivity.
Defined.

(** ** CoordinateTransform: distances *)

(** X6: [transform] scales every distance by the absolute value of the
    scale, whatever the pan and the view centre. *)
Theorem transform_scales_distance (V : View) (p q : Vec.t) :
  norm (Vec.sub (transform V p) (transform V q))
  = Rabs (scale V) * norm (Vec.sub p q).
Proof.
  unfold norm, transform.
  replace (Vec.mul _ _)
    with (Rsqr (scale V) * Vec.mul (Vec.sub p q) (Vec.sub p q))
    by (unfold Vec.mul, Rsqr; simpl; ring).
  rewrite sqrt_mult by (first [apply Rle_0_sqr | apply dot_self_nonneg]).
  rewrite sqrt_Rsqr_abs. reflexivity.
Qed.

(** ** The pair scan: what raises, and what is conserved *)

Lemma collides_None (bi bj : Body.t) :
  collides bi bj = None ↔ Body.rad bi <= 0 ∨ Body.rad bj <= 0.
Proof.
  split.
  - intros HN.
    destruct (decide (0 < Body.rad bi)) as [Hi | Hi]; [|left; lra].
    destruct (decide (0 < Body.rad bj)) as [Hj | Hj]; [|right; lra].
    rewrite (collides_eq bi bj _ _ (radScale_eq _ Hi) (radScale_eq _ Hj))
      in HN. discriminate.
  - unfold collides. intros [Hi | Hj].
    + rewrite (radScale_None _ Hi). reflexivity.
    + rewrite (radScale_None _ Hj).
      destruct (radScale (Body.rad bi)); reflexivity.
Qed.

Lemma merge_None (format_mass : R → string) (b1 b2 : Body.t) :
  0 < Body.rad b1 → 0 < Body.rad b2 →
  (merge format_mass b1 b2 = None ↔ Body.mass b1 + Body.mass b2 = 0).
Proof.
  intros H1 H2.
  assert (0 < Body.rad b1 ^ 3 + Body.rad b2 ^ 3) as Hr3.
  { apply Rplus_lt_0_compat; apply pow_lt; assumption. }
  split.
  - intros HN.
    destruct (decide (Body.mass b1 + Body.mass b2 = 0)) as [Hz | Hnz];
      [exact Hz|].
    rewrite merge_eq in HN by assumption. discriminate.
  - intros Hz. unfold merge, py_pow, Vec.truediv.
    rewrite (decide_True _ _ Hr3). simpl.
    rewrite Hz. unfold py_div.
    destruct (decide (0 = 0)) as [_ | Hn]; [reflexivity | contradiction].
Qed.

(** X7: a pair step on two slots of the registry raises whenever one of
    the two radii is 0 or less (the logarithm of [radScale]), and whenever
    the pair passes the collision test with masses that sum to 0 (the
    division of the merged velocity): the [try] block of the boosts does
    not reach either. *)
Theorem pair_step_raises (force_power dt : R) (format_mass : R → string)
    (i j : nat) (st : Scan) (bi bj : Body.t) :
  (i < j)%nat →
  system st !! i = Some bi →
  system st !! j = Some bj →
  Body.rad bi <= 0 ∨ Body.rad bj <= 0
  ∨ (collides bi bj = Some true ∧ Body.mass bi + Body.mass bj = 0) →
  pair_step force_power dt format_mass i j st = None.
Proof.
  intros Hij Hbi Hbj Hcase.
  rewrite (pair_step_eq _ _ _ i j st bi bj Hij Hbi Hbj). cbv zeta.
  set (f := force force_power bi bj).
  assert (Body.rad bi <= 0 ∨ Body.rad bj <= 0 → collides bi bj = None)
    as Hrad by apply collides_None.
  destruct Hcase as [H | [H | [Hc Hz]]].
  - rewrite Hrad by tauto. reflexivity.
  - rewrite Hrad by tauto. reflexivity.
  - rewrite Hc. simpl.
    destruct (collides_radii bi bj true Hc) as [Hri Hrj].
    pose proof (merge_None format_mass
                  (Body.boost (impulses dt bi bj f).1 bi)
                  (Body.boost (impulses dt bi bj f).2 bj) Hri Hrj) as HmN.
    simpl in HmN. apply HmN in Hz. rewrite Hz. reflexivity.
Qed.

Lemma pair_step_raises_witness :
  pair_step (-2) 1 sample_format 0 1
    (mkScan [placeholder; Body.new 0 (10 ^ 6) (Vec.mk 0 0) (Vec.mk 0 0)
                            (0, 0, 0)%Z EmptyString]
       [] (CentreOut m0) []) = None.
Proof.
  apply (pair_step_raises (-2) 1 sample_format 0 1
           (mkScan [placeholder; Body.new 0 (10 ^ 6) (Vec.mk 0 0) (Vec.mk 0 0)
                                   (0, 0, 0)%Z EmptyString]
              [] (CentreOut m0) [])
           placeholder
           (Body.new 0 (10 ^ 6) (Vec.mk 0 0) (Vec.mk 0 0) (0, 0, 0)%Z
              EmptyString)).
  - lia.
  - reflexivity.
  - reflexivity.
  - right. right. split; [|simpl; lra].
    apply collides_radii_product; simpl; try lra. reflexivity.
Defined.

Lemma total_mass_insert_gen (l : list Body.t) (i : nat) (b b' : Body.t) :
  l !! i = Some b →
  total_mass (<[i := b']> l) = total_mass l + (Body.mass b' - Body.mass b).
Proof.
  revert i. induction l as [|a l IH]; intros [|i] H; try discriminate.
  - injection H as ->. simpl. ring.
  - simpl in H. change (<[S i:=b']> (a :: l)) with (a :: <[i:=b']> l).
    simpl. rewrite (IH i H). ring.
Qed.

Lemma merge_momentum (format_mass : R → string) (b1 b2 m : Body.t) :
  merge format_mass b1 b2 = Some m →
  Body.mass m = Body.mass b1 + Body.mass b2
  ∧ Vec.rmul (Body.mass m) (Body.vel m)
    = Vec.add (Vec.rmul (Body.mass b1) (Body.vel b1))
              (Vec.rmul (Body.mass b2) (Body.vel b2)).
Proof.
  unfold merge. intros H.
  destruct (py_pow _ _); simpl in H; [|discriminate].
  destruct (decide (Body.mass b1 + Body.mass b2 = 0)) as [Hz | Hnz].
  - unfold Vec.truediv in H. rewrite Hz in H. unfold py_div in H.
    destruct (decide (0 = 0)) as [_ | Hn]; [discriminate | contradiction].
  - rewrite truediv_Some in H by exact Hnz. simpl in H.
    injection H as <-. simpl. split; [reflexivity|].
    apply Vec_eq; simpl; field; exact Hnz.
Qed.

Section Conservation.

Variables force_power dt : R.
Variable format_mass : R → string.

Lemma pair_step_conserves (i j : nat) (st st' : Scan) :
  (i < j)%nat → (j < length (system st))%nat →
  pair_step force_power dt format_mass i j st = Some st' →
  total_mass (system st') = total_mass (system st)
  ∧ momentum (system st') = momentum (system st)
  ∧ length (system st') = length (system st).
Proof.
  intros Hij Hj Hstep.
  destruct (lookup_lt_is_Some_2 (system st) i) as [bi Hbi]; [lia|].
  destruct (lookup_lt_is_Some_2 (system st) j) as [bj Hbj]; [lia|].
  rewrite (pair_step_eq _ _ _ i j st bi bj Hij Hbi Hbj) in Hstep.
  cbv zeta in Hstep.
  set (f := force force_power bi bj) in Hstep.
  set (bi' := Body.boost (impulses dt bi bj f).1 bi) in Hstep.
  set (bj' := Body.boost (impulses dt bi bj f).2 bj) in Hstep.
  set (sys2 := <[j:=bj']> (<[i:=bi']> (system st))) in Hstep.
  assert (sys2 !! i = Some bi') as H2i.
  { unfold sys2. rewrite list_lookup_insert_ne by lia.
    apply list_lookup_insert_eq. lia. }
  assert (sys2 !! j = Some bj') as H2j.
  { unfold sys2. apply list_lookup_insert_eq. rewrite length_insert. lia. }
  assert (total_mass sys2 = total_mass (system st)) as Hm2.
  { unfold sys2.
    rewrite (total_mass_insert _ j bj)
      by (rewrite ?list_lookup_insert_ne by lia; done).
    rewrite (total_mass_insert _ i bi) by done. reflexivity. }
  assert (momentum sys2 = momentum (system st)) as Hp2.
  { unfold sys2.
    rewrite (momentum_insert _ j bj)
      by (rewrite list_lookup_insert_ne by lia; exact Hbj).
    rewrite (momentum_insert _ i bi) by exact Hbi.
    pose proof (impulses_balance dt bi bj f) as Hbal.
    injection Hbal as Hx Hy.
    apply Vec_eq; simpl; lra. }
  assert (length sys2 = length (system st)) as Hl2
    by (unfold sys2; rewrite !length_insert; reflexivity).
  destruct (collides bi bj) as [[|]|]; simpl in Hstep; [| |discriminate].
  - destruct (merge format_mass bi' bj') as [m|] eqn:Hm;
      simpl in Hstep; [|discriminate].
    injection Hstep as <-. simpl.
    apply merge_momentum in Hm as [Hmm Hmp].
    split; [|split].
    + rewrite (total_mass_insert_gen _ j bj')
        by (rewrite list_lookup_insert_ne by lia; exact H2j).
      rewrite (total_mass_insert_gen _ i bi') by exact H2i.
      rewrite Hm2, Hmm. simpl. ring.
    + rewrite (momentum_insert _ j bj')
        by (rewrite list_lookup_insert_ne by lia; exact H2j).
      rewrite (momentum_insert _ i bi') by exact H2i.
      rewrite Hp2, Hmp. apply Vec_eq; simpl; ring.
    + rewrite !length_insert. exact Hl2.
  - injection Hstep as <-. simpl. auto.
Qed.

Lemma pair_scan_conserved (st st' : Scan) :
  pair_scan force_power dt format_mass st = Some st' →
  total_mass (system st') = total_mass (system st)
  ∧ momentum (system st') = momentum (system st)
  ∧ length (system st') = length (system st).
Proof.
  intros Hscan.
  destruct (pair_scan_inv force_power dt format_mass
              (λ t, total_mass (system t) = total_mass (system st)
                    ∧ momentum (system t) = momentum (system st))
              (length (system st)) st st') as [[Hm Hp] Hl];
    try assumption; try (split; reflexivity); try reflexivity.
  - intros i j t t' Hij Hj [Hm Hp] Hl Hstep.
    destruct (pair_step_conserves i j t t' Hij ltac:(lia) Hstep)
      as (Hm' & Hp' & Hl').
    rewrite Hm', Hp', Hl'. auto.
  - auto.
Qed.

End Conservation.

(** X8: a pair scan that ends, with or without merges, leaves the total
    mass and the total momentum of the registry as they were, and its
    length too: a merged body carries the mass and the momentum of its two
    parents, and the placeholder none. *)
Theorem pair_scan_conserves (force_power dt : R) (format_mass : R → string)
    (sys : list Body.t) (c : centre_ref) (st : Scan) :
  pair_scan force_power dt format_mass (mkScan sys [] c []) = Some st →
  total_mass (system st) = total_mass sys
  ∧ momentum (system st) = momentum sys
  ∧ length (system st) = length sys.
Proof.
  intros Hscan.
  apply (pair_scan_conserved force_power dt format_mass _ _ Hscan).
Qed.

Lemma pair_scan_conserves_witness :
  let sys := [twin_1; twin_2; far_off] in
  ∃ st,
    pair_scan (-2) 1 sample_format (mkScan sys [] (CentreOut m0) []) = Some st
    ∧ delete_idx st = [1%nat]
    ∧ total_mass (system st) = total_mass sys
    ∧ momentum (system st) = momentum sys
    ∧ length (system st) = length sys.
Proof.
  cbv zeta.
  destruct (twins_scan (-2) 1 sample_format far_off false)
    as (st & Hscan & _ & Hdel & _);
    [reflexivity | reflexivity | unfold Vec.mul; simpl; lra
     | exact collides_placeholder_far_off |].
  exists st. split; [exact Hscan|]. split; [exact Hdel|].
  exact (pair_scan_conserves (-2) 1 sample_format
           [twin_1; twin_2; far_off] (CentreOut m0) st Hscan).
Defined.

(** ** Deferred deletion *)

Lemma omit_from_app {A : Type} (ds : list nat) (k : nat) (l1 l2 : list A) :
  omit_from ds k (l1 ++ l2)
  = omit_from ds k l1 ++ omit_from ds (k + length l1) l2.
Proof.
  revert k. induction l1 as [|a l1 IH]; intros k; simpl.
  - rewrite Nat.add_0_r. reflexivity.
  - rewrite IH. replace (S k + length l1)%nat with (k + S (length l1))%nat
      by lia.
    case_decide; reflexivity.
Qed.

Lemma omit_from_ext {A : Type} (ds ds' : list nat) (k : nat) (l : list A) :
  (∀ i, (k <= i < k + length l)%nat → i ∈ ds ↔ i ∈ ds') →
  omit_from ds k l = omit_from ds' k l.
Proof.
  revert k. induction l as [|a l IH]; intros k H; simpl; [reflexivity|].
  rewrite (IH (S k)) by (intros i Hi; apply H; simpl; lia).
  assert (k ∈ ds ↔ k ∈ ds') as Hk by (apply H; simpl; lia).
  destruct (decide (k ∈ ds)) as [Hin | Hin];
    destruct (decide (k ∈ ds')) as [Hin' | Hin']; try reflexivity;
    exfalso; tauto.
Qed.

Lemma omit_from_none {A : Type} (ds : list nat) (k : nat) (l : list A) :
  (∀ i, (k <= i < k + length l)%nat → i ∉ ds) →
  omit_from ds k l = l.
Proof.
  revert k. induction l as [|a l IH]; intros k H; simpl; [reflexivity|].
  rewrite (IH (S k)) by (intros i Hi; apply H; simpl; lia).
  rewrite decide_False by (apply H; simpl; lia). reflexivity.
Qed.

Lemma strictly_sorted (l : list nat) :
  StronglySorted le l → NoDup l → StronglySorted lt l.
Proof.
  induction 1 as [|x l Hs IH Hall]; intros Hnd; constructor.
  - apply IH. apply NoDup_cons in Hnd as [_ Hnd]. exact Hnd.
  - apply NoDup_cons in Hnd as [Hx _].
    rewrite Forall_forall in *. intros y Hy.
    pose proof (Hall y Hy) as Hle.
    assert (x ≠ y) by (intros ->; contradiction). lia.
Qed.

(** Deleting the slots of an ascending list, highest first. *)
Lemma delete_descending (sys : list Body.t) (s : list nat) :
  StronglySorted lt s →
  Forall (λ d, d < length sys)%nat s →
  delete_slots sys (reverse s) = omit s sys
  ∧ (length (omit s sys) + length s = length sys)%nat.
Proof.
  induction 1 as [|x s Hs IH Hall]; intros Hrange.
  - unfold omit. rewrite omit_from_none by (intros; apply not_elem_of_nil).
    simpl. split; [reflexivity | lia].
  - apply Forall_cons in Hrange as [Hx Hrange].
    destruct (IH Hrange) as [IHeq IHlen].
    rewrite Forall_forall in Hall.
    assert (∀ i, i ∈ s → (x < i)%nat) as Hgt.
    { intros i Hi. apply Hall. exact Hi. }
    destruct (lookup_lt_is_Some_2 sys x Hx) as [a Ha].
    assert (omit s sys = take x sys ++ a :: omit_from s (S x) (drop (S x) sys))
      as Hprev.
    { unfold omit. rewrite <- (take_drop_middle sys x a Ha) at 1.
      rewrite omit_from_app, length_take_le by lia. simpl.
      rewrite omit_from_none
        by (intros i Hi Hin; apply Hgt in Hin; rewrite length_take in Hi; lia).
      rewrite decide_False by (intros Hin; apply Hgt in Hin; lia).
      reflexivity. }
    assert (omit (x :: s) sys = take x sys ++ omit_from s (S x) (drop (S x) sys))
      as Hnew.
    { unfold omit. rewrite <- (take_drop_middle sys x a Ha) at 1.
      rewrite omit_from_app, length_take_le by lia. simpl.
      rewrite omit_from_none
        by (intros i Hi [-> | Hin]%elem_of_cons;
            [|apply Hgt in Hin]; rewrite length_take in Hi; lia).
      rewrite decide_True by left.
      f_equal. apply omit_from_ext. intros i Hi. split.
      - intros [-> | Hin]%elem_of_cons; [lia | exact Hin].
      - intros Hin. right. exact Hin. }
    unfold delete_slots in *. rewrite reverse_cons, foldl_snoc, IHeq.
    rewrite Hnew, Hprev. split.
    + rewrite <- (length_take_le sys x) at 1 by lia.
      apply delete_middle.
    + rewrite Hprev in IHlen. rewrite !length_app in *. simpl in *. lia.
Qed.

Lemma delete_order_sorted (ds : list nat) :
  ∃ s, delete_order ds = reverse s
       ∧ StronglySorted lt s
       ∧ (∀ i, i ∈ s ↔ i ∈ ds)
       ∧ length s = length (remove_dups ds).
Proof.
  exists (merge_sort le (remove_dups ds)).
  pose proof (merge_sort_Permutation le (remove_dups ds)) as Hperm.
  split; [reflexivity|]. split; [|split].
  - apply strictly_sorted.
    + apply StronglySorted_merge_sort; apply _.
    + rewrite Hperm. apply NoDup_remove_dups.
  - intros i. rewrite Hperm. apply elem_of_remove_dups.
  - rewrite Hperm. reflexivity.
Qed.

Lemma delete_slots_eq (sys : list Body.t) (ds : list nat) :
  Forall (λ d, d < length sys)%nat ds →
  delete_slots sys (delete_order ds) = omit ds sys
  ∧ (length (delete_slots sys (delete_order ds))
     + length (remove_dups ds) = length sys)%nat.
Proof.
  intros Hrange.
  destruct (delete_order_sorted ds) as (s & -> & Hsorted & Hmem & Hlen).
  destruct (delete_descending sys s Hsorted) as [Heq Hl].
  { rewrite Forall_forall in *. intros d Hd.
    apply Hrange, Hmem. exact Hd. }
  assert (omit s sys = omit ds sys) as Hom
    by (apply omit_from_ext; intros i _; apply Hmem).
  rewrite Heq, <- Hom, <- Hlen. split; [reflexivity | exact Hl].
Qed.

(** X9: deleting the listed slots in descending order, each once, leaves
    exactly the bodies of the other slots, in their order: no deletion
    moves a slot that is still to be deleted.  The registry shrinks by the
    number of different slots listed. *)
Theorem delete_slots_omit (sys : list Body.t) (ds : list nat) :
  Forall (λ d, d < length sys)%nat ds →
  delete_slots sys (delete_order ds) = omit ds sys
  ∧ (length (delete_slots sys (delete_order ds))
     + length (remove_dups ds) = length sys)%nat.
Proof. apply delete_slots_eq. Qed.

Lemma delete_slots_omit_witness :
  delete_slots [twin_1; twin_2; at_origin; far_off]
    (delete_order [2; 1; 2]%nat)
  = omit [2; 1; 2]%nat [twin_1; twin_2; at_origin; far_off]
  ∧ (length (delete_slots [twin_1; twin_2; at_origin; far_off]
               (delete_order [2; 1; 2]%nat))
     + length (remove_dups [2; 1; 2]%nat) = 4)%nat.
Proof.
  apply (delete_slots_omit [twin_1; twin_2; at_origin; far_off]
           [2; 1; 2]%nat).
  repeat constructor.
Defined.

(** *** Where a surviving slot ends up *)

Lemma count_range_bound (ds : list nat) (o k : nat) :
  NoDup ds →
  (length (filter (λ d, o <= d < o + k)%nat ds) <= k)%nat.
Proof.
  intros Hnd.
  assert (length (filter (λ d, o <= d < o + k)%nat ds)
          <= length (seq o k))%nat as H; [|rewrite length_seq in H; exact H].
  apply submseteq_length, NoDup_submseteq.
  - apply NoDup_filter. exact Hnd.
  - intros d [Hd _]%list_elem_of_filter. apply elem_of_seq. lia.
Qed.

Lemma count_range_step (ds : list nat) (o k : nat) :
  NoDup ds →
  length (filter (λ d, o <= d < o + S k)%nat ds)
  = ((if decide (o ∈ ds) then 1 else 0)
     + length (filter (λ d, S o <= d < S o + k)%nat ds))%nat.
Proof.
  induction 1 as [|d ds Hd Hnd IH].
  - rewrite decide_False by apply not_elem_of_nil. reflexivity.
  - rewrite !filter_cons.
    set (F0 := filter (λ d, o <= d < o + S k)%nat ds) in *.
    set (F1 := filter (λ d, S o <= d < S o + k)%nat ds) in *.
    destruct (decide (d = o)) as [-> | Hne].
    + rewrite decide_True by lia.
      rewrite (decide_False (P := (S o <= o < S o + k)%nat)) by lia.
      rewrite (decide_True (P := o ∈ o :: ds)) by left.
      rewrite decide_False in IH by exact Hd.
      simpl. rewrite IH. reflexivity.
    + assert (o ∈ d :: ds ↔ o ∈ ds) as Hmem.
      { rewrite elem_of_cons. split; [intros [-> | H]; [contradiction|exact H]
                                     | intros H; right; exact H]. }
      assert ((if decide (o ∈ d :: ds) then 1 else 0)
              = (if decide (o ∈ ds) then 1 else 0))%nat as ->.
      { destruct (decide (o ∈ d :: ds)), (decide (o ∈ ds));
          try reflexivity; exfalso; tauto. }
      destruct (decide (o <= d < o + S k)%nat) as [Hin | Hout].
      * rewrite (decide_True (P := (S o <= d < S o + k)%nat)) by lia.
        simpl. rewrite IH. lia.
      * rewrite (decide_False (P := (S o <= d < S o + k)%nat)) by lia.
        exact IH.
Qed.

(** A slot [o + k] that is not deleted moves down by the number of deleted
    slots below it. *)
Lemma omit_from_lookup {A : Type} (ds : list nat) (o k : nat) (l : list A) :
  NoDup ds →
  (o + k)%nat ∉ ds →
  omit_from ds o l
    !! (k - length (filter (λ d, o <= d < o + k)%nat ds))%nat
  = l !! k.
Proof.
  intros Hnd. revert o k. induction l as [|a l IH]; intros o k Hk.
  - simpl. rewrite !lookup_nil. reflexivity.
  - destruct k as [|k].
    + rewrite Nat.add_0_r in Hk. simpl.
      rewrite decide_False by exact Hk. reflexivity.
    + rewrite (count_range_step ds o k Hnd).
      pose proof (count_range_bound ds (S o) k Hnd) as Hb.
      specialize (IH (S o) k ltac:(replace (S o + k)%nat with (o + S k)%nat
                                     by lia; exact Hk)).
      set (c := length (filter (λ d, S o <= d < S o + k)%nat ds)) in *.
      cbn [omit_from]. destruct (decide (o ∈ ds)) as [Hin | Hout].
      * replace (S k - (1 + c))%nat with (k - c)%nat by lia. exact IH.
      * replace (S k - (0 + c))%nat with (S (k - c)) by lia. exact IH.
Qed.

Lemma filter_below_range (ds : list nat) (k : nat) :
  filter (λ d, d < k)%nat ds = filter (λ d, 0 <= d < 0 + k)%nat ds.
Proof.
  induction ds as [|d ds IH]; [reflexivity|].
  rewrite !filter_cons, IH.
  destruct (decide (d < k)%nat); destruct (decide (0 <= d < 0 + k)%nat);
    try reflexivity; lia.
Qed.

Lemma delete_order_elem (ds : list nat) (i : nat) :
  i ∈ delete_order ds ↔ i ∈ ds.
Proof.
  unfold delete_order.
  rewrite elem_of_reverse, (merge_sort_Permutation le (remove_dups ds)).
  apply elem_of_remove_dups.
Qed.

Lemma delete_order_NoDup (ds : list nat) : NoDup (delete_order ds).
Proof.
  unfold delete_order.
  rewrite reverse_Permutation, (merge_sort_Permutation le (remove_dups ds)).
  apply NoDup_remove_dups.
Qed.

(** A slot that is not marked holds, after the deletion, the body it held
    before, at the index that [reindex] computes. *)
Lemma delete_slots_lookup (sys : list Body.t) (ds : list nat) (k : nat) :
  Forall (λ d, d < length sys)%nat ds →
  k ∉ ds →
  delete_slots sys (delete_order ds)
    !! (k - length (filter (λ d, d < k)%nat (delete_order ds)))%nat
  = sys !! k.
Proof.
  intros Hrange Hk.
  destruct (delete_slots_eq sys ds Hrange) as [-> _].
  assert (omit ds sys = omit (delete_order ds) sys) as ->.
  { apply omit_from_ext. intros i _. symmetry. apply delete_order_elem. }
  rewrite filter_below_range. unfold omit.
  apply omit_from_lookup.
  - apply delete_order_NoDup.
  - simpl. rewrite delete_order_elem. exact Hk.
Qed.

(** ** The frame as a whole: what it keeps *)

Section FrameFacts.

Variables force_power dt : R.
Variable format_mass : R → string.

Lemma pair_step_marks (n i j : nat) (st st' : Scan) :
  (i < j)%nat → (j < n)%nat →
  marks_inv n st → length (system st) = n →
  pair_step force_power dt format_mass i j st = Some st' →
  marks_inv n st' ∧ length (system st') = n.
Proof.
  intros Hij Hj [Hmarks Hcen] Hlen Hstep.
  destruct (lookup_lt_is_Some_2 (system st) i) as [bi Hbi]; [lia|].
  destruct (lookup_lt_is_Some_2 (system st) j) as [bj Hbj]; [lia|].
  rewrite (pair_step_eq _ _ _ i j st bi bj Hij Hbi Hbj) in Hstep.
  cbv zeta in Hstep.
  destruct (collides bi bj) as [[|]|]; simpl in Hstep; [| |discriminate].
  - destruct (merge _ _ _) as [m|]; simpl in Hstep; [|discriminate].
    injection Hstep as <-. unfold marks_inv. simpl.
    split; [|rewrite !length_insert; exact Hlen]. split.
    + apply Forall_app. split; [exact Hmarks|].
      constructor; [lia | constructor].
    + unfold detach. destruct (centre st) as [k | b]; [|exact I].
      case_decide; [|exact Hcen].
      destruct (_ !! k); [exact I | exact Hcen].
  - injection Hstep as <-. unfold marks_inv. simpl.
    split; [|rewrite !length_insert; exact Hlen]. split; assumption.
Qed.

Lemma pair_scan_marks (sys : list Body.t) (c : centre_ref) (st : Scan) :
  centre_ok (length sys) c →
  pair_scan force_power dt format_mass (mkScan sys [] c []) = Some st →
  marks_inv (length sys) st ∧ length (system st) = length sys.
Proof.
  intros Hc Hscan.
  apply (pair_scan_inv force_power dt format_mass (marks_inv (length sys))
           (length sys) (mkScan sys [] c []) st); try assumption.
  - intros i j t t'. apply pair_step_marks.
  - split; [constructor | exact Hc].
  - reflexivity.
Qed.

End FrameFacts.

(** A running frame that ends, taken apart. *)
Lemma frame_running (force_power dt : R) (format_mass : R → string)
    (F : Flags) (sys : list Body.t) (c : centre_ref) (w' : World) :
  pause F = false →
  frame force_power dt format_mass F (mkWorld sys c) = Some w' →
  ∃ st ref,
    pair_scan force_power dt format_mass (mkScan sys [] c []) = Some st
    ∧ centre_body
        (delete_slots (system st) (delete_order (delete_idx st)))
        (reindex (system st) (delete_order (delete_idx st)) (centre st))
      = Some ref
    ∧ w' = mkWorld
             (map (advance dt F (Body.vel ref))
                (delete_slots (system st) (delete_order (delete_idx st))))
             (reindex (system st) (delete_order (delete_idx st)) (centre st)).
Proof.
  intros Hp Hframe. unfold frame in Hframe. rewrite Hp in Hframe.
  simpl in Hframe.
  destruct (pair_scan _ _ _ _) as [st|] eqn:Hscan; simpl in Hframe;
    [|discriminate].
  destruct (centre_body _ _) as [ref|] eqn:Href; simpl in Hframe;
    [|discriminate].
  injection Hframe as <-. exists st, ref. auto.
Qed.

Lemma marks_in_range (n : nat) (st : Scan) :
  marks_inv n st → length (system st) = n →
  Forall (λ d, d < length (system st))%nat (delete_idx st)
  ∧ 0%nat ∉ delete_idx st.
Proof.
  intros [Hmarks _] Hlen. rewrite Forall_forall in Hmarks. split.
  - apply Forall_forall. intros d Hd. apply Hmarks in Hd. lia.
  - intros H0. apply Hmarks in H0. lia.
Qed.

(** X10: a frame that ends never makes the registry longer, leaves its
    length alone when paused, and never empties it: the lower slot of a
    merged pair stays, so slot 0 is never deleted. *)
Theorem frame_registry_size (force_power dt : R) (format_mass : R → string)
    (F : Flags) (sys : list Body.t) (c : centre_ref) (w' : World) :
  centre_ok (length sys) c →
  frame force_power dt format_mass F (mkWorld sys c) = Some w' →
  (length (w_system w') <= length sys)%nat
  ∧ (sys ≠ [] → w_system w' ≠ [])
  ∧ (pause F = true → length (w_system w') = length sys).
Proof.
  intros Hc Hframe. destruct (pause F) eqn:Hp.
  - unfold frame in Hframe. rewrite Hp in Hframe. simpl in Hframe.
    destruct (centre_body sys c); simpl in Hframe; [|discriminate].
    injection Hframe as <-. simpl. rewrite length_map.
    split; [lia|]. split; [|reflexivity].
    destruct sys; [contradiction | discriminate].
  - destruct (frame_running _ _ _ F sys c w' Hp Hframe)
      as (st & ref & Hscan & _ & ->).
    destruct (pair_scan_marks _ _ _ sys c st Hc Hscan) as [Hinv Hlen].
    destruct (marks_in_range _ st Hinv Hlen) as [Hrange H0].
    destruct (delete_slots_eq (system st) (delete_idx st) Hrange)
      as [Heq Hl].
    simpl. rewrite length_map. split; [lia|]. split; [|discriminate].
    intros Hne. rewrite Heq.
    destruct (system st) as [|a rest] eqn:Hsys.
    { destruct sys; [contradiction | discriminate]. }
    unfold omit. simpl. rewrite decide_False by exact H0. discriminate.
Qed.

Lemma frame_registry_size_witness :
  ∃ w',
    frame (-2) 1 sample_format running
      (mkWorld [far_a; far_b] (CentreIn 1)) = Some w'
    ∧ (length (w_system w') <= 2)%nat
    ∧ ([far_a; far_b] ≠ [] → w_system w' ≠ [])
    ∧ (pause running = true → length (w_system w') = 2%nat).
Proof.
  destruct (quiet_frame (-2) 1 sample_format running [far_a; far_b]
              (CentreIn 1) eq_refl no_hits_far
              (ex_intro _ far_b eq_refl))
    as (st & ref & _ & _ & _ & _ & Hframe).
  eexists. split; [exact Hframe|].
  apply (frame_registry_size (-2) 1 sample_format running
           [far_a; far_b] (CentreIn 1) _ ltac:(simpl; lia) Hframe).
Defined.

(** X11: after a running frame the reference body, when it is still a
    body of the registry, is at rest: the frame shift takes its own
    velocity off it. *)
Theorem frame_centre_at_rest (force_power dt : R) (format_mass : R → string)
    (F : Flags) (sys : list Body.t) (c : centre_ref) (w' : World) (k : nat) :
  pause F = false →
  centre_ok (length sys) c →
  frame force_power dt format_mass F (mkWorld sys c) = Some w' →
  w_centre w' = CentreIn k →
  ∃ b, w_system w' !! k = Some b ∧ Body.vel b = Vec.mk 0 0.
Proof.
  intros Hp Hc Hframe Hk.
  destruct (frame_running _ _ _ F sys c w' Hp Hframe)
    as (st & ref & Hscan & Href & ->).
  destruct (pair_scan_marks _ _ _ sys c st Hc Hscan) as [Hinv Hlen].
  destruct (marks_in_range _ st Hinv Hlen) as [Hrange _].
  destruct Hinv as [_ Hcen]. simpl in Hk.
  destruct (centre st) as [k0 | b0]; simpl in Hk, Hcen; [|discriminate].
  destruct (lookup_lt_is_Some_2 (system st) k0) as [b0 Hb0]; [lia|].
  rewrite Hb0 in Hk.
  destruct (decide (k0 ∈ delete_order (delete_idx st))) as [Hin | Hout];
    [discriminate|].
  injection Hk as <-.
  rewrite delete_order_elem in Hout.
  pose proof (delete_slots_lookup (system st) (delete_idx st) k0 Hrange Hout)
    as Hlook.
  unfold reindex in Href.
  rewrite decide_False in Href by (rewrite delete_order_elem; exact Hout).
  simpl in Href. rewrite Hlook, Hb0 in Href. injection Href as <-.
  exists (advance dt F (Body.vel b0) b0). simpl. split.
  - rewrite list_lookup_fmap, Hlook, Hb0. reflexivity.
  - destruct (advance_fields dt F (Body.vel b0) b0 Hp) as [_ ->].
    apply Vec_eq; simpl; ring.
Qed.

Lemma frame_centre_at_rest_witness :
  ∃ w',
    frame (-2) 1 sample_format running
      (mkWorld [far_a; far_b] (CentreIn 1)) = Some w'
    ∧ ∃ b, w_system w' !! 1%nat = Some b ∧ Body.vel b = Vec.mk 0 0.
Proof.
  destruct (quiet_frame (-2) 1 sample_format running [far_a; far_b]
              (CentreIn 1) eq_refl no_hits_far
              (ex_intro _ far_b eq_refl))
    as (st & ref & _ & _ & _ & _ & Hframe).
  eexists. split; [exact Hframe|].
  apply (frame_centre_at_rest (-2) 1 sample_format running
           [far_a; far_b] (CentreIn 1) _ 1%nat eq_refl
           ltac:(simpl; lia) Hframe eq_refl).
Defined.

(** ** The masses over a scan and a frame *)

Lemma merge_rad (format_mass : R → string) (b1 b2 m : Body.t) :
  0 < Body.rad b1 → 0 < Body.rad b2 →
  merge format_mass b1 b2 = Some m → 0 < Body.rad m.
Proof.
  intros H1 H2 Hm.
  assert (0 < Body.rad b1 ^ 3 + Body.rad b2 ^ 3) as Hr3.
  { apply Rplus_lt_0_compat; apply pow_lt; assumption. }
  unfold merge, py_pow in Hm. rewrite (decide_True _ _ Hr3) in Hm.
  simpl in Hm.
  destruct (Vec.truediv _ _); simpl in Hm; [|discriminate].
  injection Hm as <-. simpl. unfold Rpower. apply exp_pos.
Qed.

Lemma advance_mass (dt : R) (F : Flags) (vshift : Vec.t) (b : Body.t) :
  Body.mass (advance dt F vshift b) = Body.mass b.
Proof.
  unfold advance.
  destruct (pause F), (tracing F), (trace_clear F); try case_decide;
    unfold Body.addTrace; try case_decide; reflexivity.
Qed.

Lemma advance_rad (dt : R) (F : Flags) (vshift : Vec.t) (b : Body.t) :
  Body.rad (advance dt F vshift b) = Body.rad b.
Proof.
  unfold advance.
  destruct (pause F), (tracing F), (trace_clear F); try case_decide;
    unfold Body.addTrace; try case_decide; reflexivity.
Qed.

Lemma omit_from_Forall {A : Type} (P : A → Prop) (ds : list nat) (o : nat)
    (l : list A) :
  (∀ k a, l !! k = Some a → (o + k)%nat ∉ ds → P a) →
  Forall P (omit_from ds o l).
Proof.
  revert o. induction l as [|a l IH]; intros o H; cbn [omit_from];
    [constructor|].
  assert (Forall P (omit_from ds (S o) l)) as Hrest.
  { apply IH. intros k b Hk Hout. apply (H (S k) b Hk).
    replace (o + S k)%nat with (S o + k)%nat by lia. exact Hout. }
  case_decide as Hin; [exact Hrest|]. constructor; [|exact Hrest].
  apply (H 0%nat a eq_refl). rewrite Nat.add_0_r. exact Hin.
Qed.

Section MassInvariant.

Variables force_power dt : R.
Variable format_mass : R → string.

Lemma pair_step_masses (strict : Prop) (n i j : nat) (st st' : Scan) :
  (i < j)%nat → (j < n)%nat →
  masses_inv strict st → length (system st) = n →
  pair_step force_power dt format_mass i j st = Some st' →
  masses_inv strict st' ∧ length (system st') = n.
Proof.
  intros Hij Hj Hinv Hlen Hstep.
  destruct (pair_step_conserves force_power dt format_mass i j st st' Hij
              ltac:(lia) Hstep) as (_ & _ & Hl).
  split; [|lia].
  destruct (lookup_lt_is_Some_2 (system st) i) as [bi Hbi]; [lia|].
  destruct (lookup_lt_is_Some_2 (system st) j) as [bj Hbj]; [lia|].
  destruct (Hinv i bi Hbi) as [Hmi Hsi].
  destruct (Hinv j bj Hbj) as [Hmj Hsj].
  rewrite (pair_step_eq _ _ _ i j st bi bj Hij Hbi Hbj) in Hstep.
  cbv zeta in Hstep.
  set (f := force force_power bi bj) in Hstep.
  set (bi' := Body.boost (impulses dt bi bj f).1 bi) in Hstep.
  set (bj' := Body.boost (impulses dt bi bj f).2 bj) in Hstep.
  destruct (collides bi bj) as [[|]|] eqn:Hc; simpl in Hstep;
    [| |discriminate].
  - destruct (collides_radii bi bj true Hc) as [Hri Hrj].
    destruct (merge format_mass bi' bj') as [m|] eqn:Hm;
      simpl in Hstep; [|discriminate].
    injection Hstep as <-.
    pose proof (merge_rad format_mass bi' bj' m Hri Hrj Hm) as Hrm.
    apply merge_fields in Hm as (Hmm & _). simpl in Hmm.
    intros k b Hk. simpl in Hk |- *.
    destruct (decide (k = j)) as [Hkj | Hnj].
    + rewrite Hkj in Hk.
      rewrite list_lookup_insert_eq in Hk by (rewrite !length_insert; lia).
      injection Hk as <-. simpl. split; [lra|].
      intros _ Hout. exfalso. apply Hout. rewrite Hkj.
      apply elem_of_app. right. left.
    + rewrite list_lookup_insert_ne in Hk by lia.
      destruct (decide (k = i)) as [Hki | Hni].
      * rewrite Hki in Hk.
        rewrite list_lookup_insert_eq in Hk by (rewrite !length_insert; lia).
        injection Hk as <-. rewrite Hmm. split; [lra|].
        intros Hs Hout. split; [|exact Hrm].
        destruct (Hsi Hs) as [Hpos _]; [|lra].
        intros Hin. apply Hout. rewrite Hki. apply elem_of_app.
        left. exact Hin.
      * rewrite !list_lookup_insert_ne in Hk by lia.
        destruct (Hinv k b Hk) as [Hmk Hsk]. split; [exact Hmk|].
        intros Hs Hout. apply Hsk; [exact Hs|].
        intros Hin. apply Hout, elem_of_app. left. exact Hin.
  - injection Hstep as <-. intros k b Hk. simpl in Hk |- *.
    destruct (decide (k = j)) as [Hkj | Hnj].
    + rewrite Hkj in Hk.
      rewrite list_lookup_insert_eq in Hk by (rewrite !length_insert; lia).
      injection Hk as <-. simpl. split; [exact Hmj|].
      rewrite Hkj. exact Hsj.
    + rewrite list_lookup_insert_ne in Hk by lia.
      destruct (decide (k = i)) as [Hki | Hni].
      * rewrite Hki in Hk.
        rewrite list_lookup_insert_eq in Hk by lia.
        injection Hk as <-. simpl. split; [exact Hmi|].
        rewrite Hki. exact Hsi.
      * rewrite list_lookup_insert_ne in Hk by lia.
        exact (Hinv k b Hk).
Qed.

Lemma pair_scan_masses (strict : Prop) (sys : list Body.t) (c : centre_ref)
    (st : Scan) :
  Forall (λ b, 0 <= Body.mass b
               ∧ (strict → 0 < Body.mass b ∧ 0 < Body.rad b)) sys →
  pair_scan force_power dt format_mass (mkScan sys [] c []) = Some st →
  masses_inv strict st.
Proof.
  intros Hsys Hscan.
  refine (proj1 (pair_scan_inv force_power dt format_mass (masses_inv strict)
                   (length sys) (mkScan sys [] c []) st _ _ _ Hscan)).
  - intros i j t t'. apply pair_step_masses.
  - intros k b Hk. simpl in Hk.
    destruct (Forall_lookup_1 _ _ _ _ Hsys Hk) as [H0 Hs].
    split; [exact H0|]. intros S _. exact (Hs S).
  - reflexivity.
Qed.

End MassInvariant.

(** The sample frame with two merges. *)
Lemma twins_frame :
  ∃ w', frame (-2) 1 sample_format running
          (mkWorld [twin_1; twin_2; at_origin] (CentreOut m0)) = Some w'.
Proof.
  destruct (twins_scan (-2) 1 sample_format at_origin true)
    as (st & Hscan & _ & _ & Hcen & _);
    [reflexivity | reflexivity | unfold Vec.mul; simpl; lra
     | exact collides_placeholder_at_origin |].
  unfold frame. simpl. rewrite Hscan. simpl. rewrite Hcen. simpl. eauto.
Qed.

(** X12: a frame that ends leaves no placeholder behind: started on a
    registry in which every body has a positive mass and a positive
    radius, it ends on such a registry, whatever merges it made.  A merged
    body has the mass of its two parents and a positive radius, and every
    slot that holds a placeholder is deleted. *)
Theorem frame_keeps_positive (force_power dt : R) (format_mass : R → string)
    (F : Flags) (sys : list Body.t) (c : centre_ref) (w' : World) :
  Forall (λ b, 0 < Body.mass b ∧ 0 < Body.rad b) sys →
  centre_ok (length sys) c →
  frame force_power dt format_mass F (mkWorld sys c) = Some w' →
  Forall (λ b, 0 < Body.mass b ∧ 0 < Body.rad b) (w_system w').
Proof.
  intros Hpos Hc Hframe.
  assert (∀ l v, Forall (λ b, 0 < Body.mass b ∧ 0 < Body.rad b) l →
            Forall (λ b, 0 < Body.mass b ∧ 0 < Body.rad b)
              (map (advance dt F v) l)) as Hadv.
  { intros l v Hl. induction Hl as [|b l Hb _ IH]; simpl; constructor;
      [|exact IH].
    rewrite advance_mass, advance_rad. exact Hb. }
  destruct (pause F) eqn:Hp.
  - unfold frame in Hframe. rewrite Hp in Hframe. simpl in Hframe.
    destruct (centre_body sys c); simpl in Hframe; [|discriminate].
    injection Hframe as <-. simpl. apply Hadv, Hpos.
  - destruct (frame_running _ _ _ F sys c w' Hp Hframe)
      as (st & ref & Hscan & _ & ->).
    destruct (pair_scan_marks _ _ _ sys c st Hc Hscan) as [Hinv Hlen].
    destruct (marks_in_range _ st Hinv Hlen) as [Hrange _].
    destruct (delete_slots_eq (system st) (delete_idx st) Hrange)
      as [Heq _].
    assert (masses_inv True st) as Hm.
    { apply (pair_scan_masses force_power dt format_mass True sys c st);
        [|exact Hscan].
      apply (Forall_impl _ _ _ Hpos). intros b [Hmb Hrb].
      split; [lra | auto]. }
    simpl. apply Hadv. rewrite Heq. unfold omit. apply omit_from_Forall.
    intros k b Hk Hout. simpl in Hout.
    apply (Hm k b Hk); [exact I | exact Hout].
Qed.

Lemma frame_keeps_positive_witness :
  ∃ w', frame (-2) 1 sample_format running
          (mkWorld [twin_1; twin_2; at_origin] (CentreOut m0)) = Some w'
        ∧ Forall (λ b, 0 < Body.mass b ∧ 0 < Body.rad b) (w_system w').
Proof.
  destruct twins_frame as [w' Hframe].
  exists w'. split; [exact Hframe|].
  apply (frame_keeps_positive (-2) 1 sample_format running
           [twin_1; twin_2; at_origin] (CentreOut m0) w'); [| |exact Hframe].
  - repeat constructor; simpl; lra.
  - exact I.
Defined.

(** ** TraceBuffer: what the bounded history holds *)

Lemma apply_op_cut (cap : Z) (op : body_op) (b u : Body.t) :
  (1 <= cap)%Z →
  Body.set_trace (Body.trace b) u = b →
  Body.trace b
  = drop (length (Body.trace u) - Z.to_nat cap) (Body.trace u) →
  Body.set_trace (Body.trace (apply_op cap b op)) (apply_op_uncut u op)
  = apply_op cap b op
  ∧ Body.trace (apply_op cap b op)
    = drop (length (Body.trace (apply_op_uncut u op)) - Z.to_nat cap)
        (Body.trace (apply_op_uncut u op)).
Proof.
  intros Hcap Hsame Htr.
  destruct b as [bm br bp bv bc bn bt], u as [um ur up uv uc un ut].
  unfold Body.set_trace in Hsame. simpl in Hsame, Htr.
  injection Hsame as -> -> -> -> -> ->.
  destruct op; simpl; try (split; [reflexivity | exact Htr]).
  - unfold Body.addTrace, Body.trace_point. simpl.
    set (n := length ut) in *.
    assert (length bt = (n - (n - Z.to_nat cap))%nat) as Hlb
      by (rewrite Htr, length_drop; reflexivity).
    case_decide as Hfull; simpl; (split; [reflexivity|]);
      rewrite length_app; simpl; fold n.
    + rewrite Htr, drop_drop.
      rewrite drop_app_le by (fold n; lia).
      f_equal. f_equal. lia.
    + rewrite Htr.
      replace (n - Z.to_nat cap)%nat with 0%nat by lia.
      replace (n + 1 - Z.to_nat cap)%nat with 0%nat by lia.
      reflexivity.
  - split; reflexivity.
Qed.

(** X13: for a cap of at least 1, the history of a body is at every
    moment the last [cap] points of all the points recorded since the last
    clear, oldest first, and nothing else about the body depends on the
    cap. *)
Theorem trace_is_recent_suffix (cap : Z) (ops : list body_op) (b : Body.t) :
  (1 <= cap)%Z →
  (Z.of_nat (length (Body.trace b)) <= cap)%Z →
  let cut := run_ops cap ops b in
  let uncut := run_ops_uncut ops b in
  Body.trace cut
  = drop (length (Body.trace uncut) - Z.to_nat cap) (Body.trace uncut)
  ∧ Body.set_trace (Body.trace cut) uncut = cut.
Proof.
  intros Hcap Hlen. cbv zeta. unfold run_ops, run_ops_uncut.
  assert (∀ c u,
            Body.set_trace (Body.trace c) u = c →
            Body.trace c
            = drop (length (Body.trace u) - Z.to_nat cap) (Body.trace u) →
            Body.trace (foldl (apply_op cap) c ops)
            = drop (length (Body.trace (foldl apply_op_uncut u ops))
                    - Z.to_nat cap)
                (Body.trace (foldl apply_op_uncut u ops))
            ∧ Body.set_trace (Body.trace (foldl (apply_op cap) c ops))
                (foldl apply_op_uncut u ops)
              = foldl (apply_op cap) c ops) as Hgen.
  { induction ops as [|op ops IH]; intros c u Hsame Htr; simpl.
    - split; assumption.
    - destruct (apply_op_cut cap op c u Hcap Hsame Htr) as [Hs' Ht'].
      apply IH; assumption. }
  apply Hgen.
  - destruct b; reflexivity.
  - replace (length (Body.trace b) - Z.to_nat cap)%nat with 0%nat by lia.
    reflexivity.
Qed.

Lemma trace_is_recent_suffix_witness :
  let b := Body.new 1 1 (Vec.mk 0 0) (Vec.mk 1 0) (0, 0, 0)%Z EmptyString in
  let ops := [OpAddTrace; OpMove 1; OpAddTrace; OpMove 1; OpAddTrace] in
  Body.trace (run_ops 2 ops b)
  = drop (length (Body.trace (run_ops_uncut ops b)) - Z.to_nat 2)
      (Body.trace (run_ops_uncut ops b))
  ∧ Body.set_trace (Body.trace (run_ops 2 ops b)) (run_ops_uncut ops b)
    = run_ops 2 ops b.
Proof.
  apply (trace_is_recent_suffix 2
           [OpAddTrace; OpMove 1; OpAddTrace; OpMove 1; OpAddTrace]
           (Body.new 1 1 (Vec.mk 0 0) (Vec.mk 1 0) (0, 0, 0)%Z EmptyString));
    simpl; lia.
Defined.

(** ** vector.py: powers of a vector *)

Lemma vec_pow_from_1_num (v : Vec.t) (n : nat) :
  vec_pow_from_1 v (S n) = None ∨ ∃ a, vec_pow_from_1 v (S n) = Some (PyNum a).
Proof.
  simpl. destruct (vec_pow_from_1 v n) as [r|]; simpl; [|auto].
  destruct (vec_mul v r); simpl; eauto.
Qed.

(** X14: [v ** n] has a value for exactly two integers: [v ** 1] is [v]
    and [v ** 2] is the number [v * v]; every other exponent raises (below
    1 the recursion never ends, from 3 on a vector is multiplied by a
    number). *)
Theorem vec_pow_defined (v : Vec.t) (n : Z) (r : pyval) :
  vec_pow v n = Some r
  ↔ (n = 1%Z ∧ r = PyVec v) ∨ (n = 2%Z ∧ r = PyNum (Vec.pow_2 v)).
Proof.
  unfold vec_pow. split.
  - case_decide as Hn; [discriminate|].
    destruct (Z.to_nat (n - 1)) as [|[|m]] eqn:Hm.
    + simpl. intros [= <-]. left. split; [lia | reflexivity].
    + simpl. intros [= <-]. right. split; [lia | reflexivity].
    + intros H. exfalso.
      change (vec_pow_from_1 v (S (S m)))
        with (r ← vec_pow_from_1 v (S m); a ← vec_mul v r; Some (PyNum a))
        in H.
      destruct (vec_pow_from_1_num v m) as [HN | [a Ha]].
      * rewrite HN in H. discriminate.
      * rewrite Ha in H. discriminate.
  - intros [[-> ->] | [-> ->]]; reflexivity.
Qed.

(** ** The keys *)

Lemma handle_keys_zoom (K : Keys) (C : Controls) :
  c_scale (handle_keys K C) * c_scroll_speed (handle_keys K C)
  = c_scale C * c_scroll_speed C
  ∧ (0 < c_scale C → 0 < c_scale (handle_keys K C)).
Proof.
  unfold handle_keys, scale_step.
  destruct (K_EQUALS K), (K_MINUS K); simpl; split;
    try (field; lra); intros H; lra.
Qed.

(** X15: whatever keys are held over any number of passes, the product of
    the scale and the scroll speed stays what it was, and a positive scale
    stays positive, so that [detransform] never divides by zero. *)
Theorem zoom_keeps_product (Ks : list Keys) (C : Controls) :
  0 < c_scale C →
  c_scale (run_keys Ks C) * c_scroll_speed (run_keys Ks C)
  = c_scale C * c_scroll_speed C
  ∧ 0 < c_scale (run_keys Ks C)
  ∧ ∀ (V : View) (p : Vec.t),
      scale V = c_scale (run_keys Ks C) → is_Some (detransform V p).
Proof.
  intros Hpos.
  assert (c_scale (run_keys Ks C) * c_scroll_speed (run_keys Ks C)
          = c_scale C * c_scroll_speed C
          ∧ 0 < c_scale (run_keys Ks C)) as [Hprod Hs].
  { unfold run_keys. revert C Hpos.
    induction Ks as [|K Ks IH]; intros C Hpos; simpl; [auto|].
    destruct (handle_keys_zoom K C) as [Hp Hz].
    destruct (IH (handle_keys K C) (Hz Hpos)) as [Hp' Hz'].
    rewrite Hp', Hp. auto. }
  split; [exact Hprod|]. split; [exact Hs|].
  intros V p HV. unfold detransform.
  rewrite truediv_Some by (rewrite HV; lra). simpl. eauto.
Qed.

Lemma zoom_keeps_product_witness :
  let Ks := [mkKeys false false true false true false false false;
             mkKeys false true false true false false false true] in
  c_scale (run_keys Ks start_controls)
  * c_scroll_speed (run_keys Ks start_controls)
  = c_scale start_controls * c_scroll_speed start_controls
  ∧ 0 < c_scale (run_keys Ks start_controls)
  ∧ ∀ (V : View) (p : Vec.t),
      scale V = c_scale (run_keys Ks start_controls) →
      is_Some (detransform V p).
Proof.
  apply (zoom_keeps_product
           [mkKeys false false true false true false false false;
            mkKeys false true false true false false false true]
           start_controls).
  simpl. lra.
Defined.

(** X16: opposite keys held in the same pass cancel: [=] with [-] leaves
    the scale and the scroll speed as they were, the two brackets leave
    [dt], and up with down, or left with right, leave the pan. *)
Theorem opposite_keys_cancel (C : Controls) :
  handle_keys (mkKeys true true true true true true true true) C = C
  ∧ handle_keys (mkKeys false false true true false false false false) C = C
  ∧ handle_keys (mkKeys true true false false false false false false) C = C
  ∧ handle_keys (mkKeys false false false false true true false false) C = C
  ∧ handle_keys (mkKeys false false false false false false true true) C = C.
Proof.
  destruct C as [d s sp [sx sy]]. unfold handle_keys, dt_step, scale_step.
  simpl. repeat split; f_equal; try (apply Vec_eq; simpl); field.
Qed.

(** ** PotentialFieldSampler: the points it returns *)

Lemma for_each_collected {A B C : Type} (P : B → C → Prop) (h : A → list C)
    (body : A → list B → option (list B)) (l : list A) :
  (∀ a acc acc', a ∈ l → body a acc = Some acc' →
     ∃ ps, acc' = acc ++ ps ∧ Forall2 P ps (h a)) →
  ∀ acc acc', for_each l body acc = Some acc' →
    ∃ pts, acc' = acc ++ pts ∧ Forall2 P pts (l ≫= h).
Proof.
  induction l as [|a l IH]; intros Hbody acc acc'; simpl.
  - intros [= <-]. exists []. rewrite app_nil_r. split; [reflexivity|constructor].
  - destruct (body a acc) as [acc1|] eqn:Hb; simpl; [|discriminate].
    intros Hrest.
    destruct (Hbody a acc acc1) as (ps & -> & HP); [left | exact Hb |].
    destruct (IH (λ a' u u' Ha', Hbody a' u u' (list_elem_of_further _ _ _ Ha'))
                 _ _ Hrest) as (pts & -> & HPts).
    exists (ps ++ pts). rewrite app_assoc. split; [reflexivity|].
    apply Forall2_app; assumption.
Qed.

Lemma filter_bind {A B : Type} (P : B → Prop) `{∀ b, Decision (P b)}
    (f : A → list B) (l : list A) :
  filter P (l ≫= f) = l ≫= (λ a, filter P (f a)).
Proof.
  induction l as [|a l IH]; [reflexivity|].
  rewrite !bind_cons, filter_app, IH. reflexivity.
Qed.

Lemma grid_cells_length (xpoints ypoints : Z) :
  length (grid_cells xpoints ypoints)
  = (Z.to_nat xpoints * Z.to_nat ypoints)%nat.
Proof.
  unfold grid_cells.
  rewrite <- (length_seqZ 0 xpoints), <- (length_seqZ 0 ypoints).
  assert (∀ x : Z, length (seqZ 0 ypoints ≫= λ y, [(x, y)])
                   = length (seqZ 0 ypoints)) as Hrow.
  { intros x. induction (seqZ 0 ypoints) as [|y ys IHy]; [reflexivity|].
    rewrite bind_cons. simpl. rewrite IHy. reflexivity. }
  induction (seqZ 0 xpoints) as [|x xs IH]; [reflexivity|].
  rewrite bind_cons, length_app, IH, Hrow. reflexivity.
Qed.

Lemma contour_cell_kept (force_power : R) (V : View) (system : list Body.t)
    (xpoints ypoints : Z) (step res : R) (x y : Z) (acc acc' : list Vec.t) :
  contour_cell force_power V system xpoints ypoints step res x y acc
  = Some acc' →
  ∃ ps, acc' = acc ++ ps
        ∧ Forall2 (λ p c, grid_point V xpoints ypoints c.1 c.2 = Some p) ps
            (filter
               (λ c, cell_kept force_power V system xpoints ypoints step res c
                     = Some true)
               [(x, y)]).
Proof.
  intros Hcell. unfold contour_cell in Hcell.
  rewrite filter_cons, filter_nil. unfold cell_kept, cell_potential.
  simpl.
  destruct (for_each system _ 0) as [pot|]; simpl in *; [|discriminate].
  destruct (py_mod pot step) as [m|]; simpl in *; [|discriminate].
  destruct (decide (m < res)) as [Hlt | Hge].
  - rewrite (bool_decide_eq_true_2 _ Hlt).
    rewrite decide_True by reflexivity.
    destruct (grid_point V xpoints ypoints x y) as [p|] eqn:Hp;
      simpl in Hcell; [|discriminate].
    injection Hcell as <-. exists [p]. split; [reflexivity|].
    repeat constructor. exact Hp.
  - rewrite (bool_decide_eq_false_2 _ Hge).
    rewrite decide_False by discriminate.
    injection Hcell as <-. exists []. rewrite app_nil_r.
    split; [reflexivity | constructor].
Qed.

(** X17: for any registry, when [contourLines] returns, it returns, in
    the order of the scan (column by column), exactly the points of the
    grid cells whose summed potential modulo the step is below the
    tolerance; so it returns at most one point per cell. *)
Theorem contourLines_filter (force_power : R) (V : View)
    (system : list Body.t) (xpoints ypoints : Z) (step res : R)
    (pts : list Vec.t) :
  contourLines force_power V system xpoints ypoints step res = Some pts →
  Forall2 (λ p c, grid_point V xpoints ypoints c.1 c.2 = Some p) pts
    (filter
       (λ c, cell_kept force_power V system xpoints ypoints step res c
             = Some true)
       (grid_cells xpoints ypoints))
  ∧ (length pts <= Z.to_nat xpoints * Z.to_nat ypoints)%nat.
Proof.
  intros Hrun.
  set (K := λ c : Z * Z,
              cell_kept force_power V system xpoints ypoints step res c
              = Some true).
  set (P := λ (p : Vec.t) (c : Z * Z),
              grid_point V xpoints ypoints c.1 c.2 = Some p).
  assert (Forall2 P pts (filter K (grid_cells xpoints ypoints))) as HF.
  { unfold grid_cells. rewrite filter_bind.
    unfold contourLines in Hrun.
    pose proof (for_each_collected P
                  (λ x, filter K (y ← seqZ 0 ypoints; [(x, y)]))
                  (λ x points,
                     for_each (seqZ 0 ypoints)
                       (contour_cell force_power V system xpoints ypoints
                          step res x) points)
                  (seqZ 0 xpoints)) as Hout.
    destruct (Hout) with (acc := @nil Vec.t) (acc' := pts)
      as (pts' & Heq & HP); [|exact Hrun|simpl in Heq; subst pts'; exact HP].
    intros x acc acc' _ Hin. rewrite filter_bind.
    apply (for_each_collected P (λ y, filter K [(x, y)])
             (contour_cell force_power V system xpoints ypoints step res x)
             (seqZ 0 ypoints)) with (acc := acc); [|exact Hin].
    intros y u u' _ Hcell.
    apply (contour_cell_kept _ _ _ _ _ _ _ _ _ _ _ Hcell). }
  split; [exact HF|].
  rewrite (Forall2_length _ _ _ HF), <- grid_cells_length.
  apply length_filter.
Qed.

Lemma contourLines_filter_witness :
  Forall2 (λ p c, grid_point start_view 1 1 c.1 c.2 = Some p)
    [Vec.mk (- (640 / 24)) (- (360 / 24))]
    (filter
       (λ c, cell_kept 0 start_view [] 1 1 (10 * / 10 ^ 5) (2 * / 10 ^ 5) c
             = Some true)
       (grid_cells 1 1))
  ∧ (length [Vec.mk (- (640 / 24)) (- (360 / 24))]
     <= Z.to_nat 1 * Z.to_nat 1)%nat.
Proof.
  apply (contourLines_filter 0 start_view [] 1 1
           (10 * / 10 ^ 5) (2 * / 10 ^ 5)).
  unfold contourLines, contour_cell. simpl.
  rewrite py_mod_zero by lra. simpl.
  rewrite decide_True by lra.
  unfold grid_point. simpl.
  rewrite !py_div_Some by lra. simpl.
  unfold detransform. rewrite truediv_Some by (simpl; lra). simpl.
  f_equal. f_equal. apply Vec_eq; cbv [Z.of_nat Z.add Z.mul]; simpl; lra.
Defined.

(** X18: with a step of 0 the sampler raises on every grid that has a
    cell, whatever the registry: the first cell already takes a potential
    modulo 0. *)
Theorem contourLines_step_zero (force_power : R) (V : View)
    (system : list Body.t) (xpoints ypoints : Z) (res : R) :
  (0 < xpoints)%Z → (0 < ypoints)%Z →
  contourLines force_power V system xpoints ypoints 0 res = None.
Proof.
  intros Hx Hy.
  assert (∀ x y acc,
            contour_cell force_power V system xpoints ypoints 0 res x y acc
            = None) as Hcell.
  { intros x y acc. unfold contour_cell.
    destruct (for_each system _ 0) as [pot|]; [|reflexivity].
    simpl. unfold py_mod. rewrite decide_True by reflexivity. reflexivity. }
  unfold contourLines.
  rewrite (seqZ_cons 0 xpoints) by exact Hx. cbn [for_each].
  rewrite (seqZ_cons 0 ypoints) by exact Hy. cbn [for_each].
  rewrite Hcell. reflexivity.
Qed.

Lemma contourLines_step_zero_witness :
  contourLines (-2) start_view [far_a] 3 2 0 (2 * / 10 ^ 5) = None.
Proof.
  apply (contourLines_step_zero (-2) start_view [far_a] 3 2 (2 * / 10 ^ 5));
    lia.
Defined.

(** ** A body without mass *)

Lemma boost_zero (b : Body.t) : Body.boost (Vec.mk 0 0) b = b.
Proof.
  destruct b as [m r p [vx vy] c n t]. unfold Body.boost, Body.set_vel.
  simpl. f_equal. apply Vec_eq; simpl; ring.
Qed.

(** X19: a body of mass 0, as the placeholder is, neither pulls nor is
    pulled: a pair step in which one of the two masses is 0 and the
    collision test fails leaves the registry, the delete list and the
    centre as they were. *)
Theorem massless_pair_step (force_power dt : R) (format_mass : R → string)
    (i j : nat) (st : Scan) (bi bj : Body.t) :
  (i < j)%nat →
  system st !! i = Some bi →
  system st !! j = Some bj →
  Body.mass bi = 0 ∨ Body.mass bj = 0 →
  collides bi bj = Some false →
  ∃ st', pair_step force_power dt format_mass i j st = Some st'
         ∧ system st' = system st
         ∧ delete_idx st' = delete_idx st
         ∧ centre st' = centre st.
Proof.
  intros Hij Hbi Hbj Hm Hmiss.
  rewrite (pair_step_eq _ _ _ i j st bi bj Hij Hbi Hbj). cbv zeta.
  rewrite Hmiss. simpl. eexists. split; [reflexivity|]. simpl.
  rewrite impulses_cases, decide_True by exact Hm. simpl.
  rewrite !boost_zero.
  rewrite (list_insert_id _ i bi Hbi), (list_insert_id _ j bj Hbj).
  auto.
Qed.

Lemma massless_pair_step_witness :
  ∃ st', pair_step (-2) 1 sample_format 0 1
           (mkScan [placeholder; far_off] [] (CentreOut m0) []) = Some st'
         ∧ system st' = [placeholder; far_off]
         ∧ delete_idx st' = []
         ∧ centre st' = CentreOut m0.
Proof.
  apply (massless_pair_step (-2) 1 sample_format 0 1
           (mkScan [placeholder; far_off] [] (CentreOut m0) [])
           placeholder far_off).
  - lia.
  - reflexivity.
  - reflexivity.
  - left. reflexivity.
  - exact collides_placeholder_far_off.
Defined.

(** ** The integrator's law *)














Section IntegratorLaw.

Variables force_power dt : R.
Variable format_mass : R → string.



End IntegratorLaw.



(** ** The mass of the registry over a frame *)

Lemma total_mass_advance (dt : R) (F : Flags) (vshift : Vec.t)
    (l : list Body.t) :
  total_mass (map (advance dt F vshift) l) = total_mass l.
Proof.
  induction l as [|b l IH]; simpl; [reflexivity|].
  rewrite advance_mass, IH. reflexivity.
Qed.

Lemma total_mass_omit_from (ds : list nat) (k : nat) (l : list Body.t) :
  Forall (λ b, 0 <= Body.mass b) l →
  total_mass (omit_from ds k l) <= total_mass l.
Proof.
  intros Hl. revert k. induction Hl as [|b l Hb _ IH]; intros k.
  - simpl. lra.
  - cbn [omit_from]. pose proof (IH (S k)) as Hk.
    case_decide; simpl; lra.
Qed.

(** X21: a frame never creates mass: when no body has a negative mass
    and the frame ends, the registry it leaves weighs at most what the
    registry weighed before; when the frame is paused, or leaves the
    registry as long as it was, the total mass is the same. *)
Theorem frame_creates_no_mass (force_power dt : R)
    (format_mass : R → string) (F : Flags) (sys : list Body.t)
    (c : centre_ref) (w' : World) :
  Forall (λ b, 0 <= Body.mass b) sys →
  centre_ok (length sys) c →
  frame force_power dt format_mass F (mkWorld sys c) = Some w' →
  total_mass (w_system w') <= total_mass sys
  ∧ (pause F = true ∨ length (w_system w') = length sys →
     total_mass (w_system w') = total_mass sys).
Proof.
  intros Hpos Hc Hframe.
  destruct (pause F) eqn:Hp.
  - unfold frame in Hframe. rewrite Hp in Hframe. simpl in Hframe.
    destruct (centre_body sys c); simpl in Hframe; [|discriminate].
    injection Hframe as <-. simpl. rewrite total_mass_advance.
    split; [lra | reflexivity].
  - destruct (frame_running _ _ _ F sys c w' Hp Hframe)
      as (st & ref & Hscan & _ & ->).
    destruct (pair_scan_marks _ _ _ sys c st Hc Hscan) as [Hinv Hlen].
    assert (masses_inv False st) as Hm.
    { apply (pair_scan_masses force_power dt format_mass False sys c st);
        [|exact Hscan].
      apply (Forall_impl _ _ _ Hpos). intros b Hb.
      split; [exact Hb | contradiction]. }
    destruct (pair_scan_conserved force_power dt format_mass _ _ Hscan)
      as (Hmass & _ & _).
    simpl in Hmass.
    destruct (marks_in_range _ st Hinv Hlen) as [Hrange _].
    destruct (delete_slots_eq (system st) (delete_idx st) Hrange)
      as [Heq Hl].
    simpl. rewrite total_mass_advance, length_map, Heq, <- Hmass. split.
    + apply total_mass_omit_from.
      apply Forall_lookup. intros k b Hk. apply (Hm k b Hk).
    + intros [Hfalse | Hsame]; [discriminate|].
      rewrite Heq in Hl.
      assert (delete_idx st = []) as Hnil.
      { destruct (delete_idx st) as [|d ds]; [reflexivity|].
        assert (d ∈ remove_dups (d :: ds)) as Hd
          by (apply elem_of_remove_dups; left).
        destruct (remove_dups (d :: ds)); [inversion Hd|].
        simpl in Hl. lia. }
      rewrite Hnil. unfold omit. rewrite omit_from_none; [reflexivity|].
      intros i _ Hi. inversion Hi.
Qed.

Lemma frame_creates_no_mass_witness :
  let sys := [twin_1; twin_2; at_origin] in
  ∃ w', frame (-2) 1 sample_format running (mkWorld sys (CentreOut m0))
        = Some w'
        ∧ total_mass (w_system w') <= total_mass sys
        ∧ (pause running = true ∨ length (w_system w') = length sys →
           total_mass (w_system w') = total_mass sys).
Proof.
  cbv zeta. destruct twins_frame as [w' Hframe].
  exists w'. split; [exact Hframe|].
  apply (frame_creates_no_mass (-2) 1 sample_format running
           [twin_1; twin_2; at_origin] (CentreOut m0) w'); [| |exact Hframe].
  - repeat constructor; simpl; lra.
  - exact I.
Defined.
